(** * Point-cloud preprocessing of the e3d tutorial notebook

    A shallow embedding of the notebook's preprocessing glue
    ([process_point_cloud], [generate_random_batch], the label loading and
    the scatter of per-voxel predictions through the inverse map), with the
    properties the specification states about it.

    Conventions of the model.
    - A NumPy array of shape (N, 4) is a list of [point] records, an
      (N, 3) array of rounded coordinates a list of [voxel] triples, a
      one-dimensional integer array a list of [Z], an index array a list
      of [nat].
    - The values of the input array and the voxel size are finite floats,
      idealised as rationals: a quotient by a non-zero voxel size is exact
      and never overflows, and [np.round] is rounding to the nearest
      integer with ties to even.  Division by a zero voxel size raises
      nothing in NumPy: it gives the infinities and NaN that a [coord]
      has besides the integers, and the minimum and the subtraction of
      the origin shift follow IEEE 754 on them.
    - The input arrays are writeable, as those of [np.fromfile] and
      [np.random.randn] are.
    - A Python exception is a [Raise] outcome of the [res] monad.
    - The functional model of [process_point_cloud] works on the contents
      of the arrays.  A second model runs the same statements on a store
      of mutable array objects; it is the one that says which objects a
      call writes to, and it is shown to compute what the functional
      model computes. *)

From Stdlib Require Import ZArith QArith Lia.
From stdpp Require Import base list strings.
Close Scope Q_scope.

(** ** Outcomes: a value or a Python exception *)

Inductive exn := ValueError | IndexError | TypeError.

Inductive res (A : Type) :=
| Ok (a : A)
| Raise (e : exn).
Arguments Ok {A} a.
Arguments Raise {A} e.

#[global] Instance res_ret : MRet res := fun A a => Ok a.
#[global] Instance res_bind : MBind res :=
  fun A B f m => match m with Ok a => f a | Raise e => Raise e end.
#[global] Instance res_fmap : FMap res :=
  fun A B f m => match m with Ok a => Ok (f a) | Raise e => Raise e end.

(** ** Data *)

(** One row of the (N, 4) input array: x, y, z and intensity. *)
Record point := Point { px : Q; py : Q; pz : Q; intensity : Q }.

(** A row of [input_point_cloud[:, :3]]. *)
Definition xyz : Type := Q * Q * Q.

(** One entry of the rounded coordinate array [pc_]: a float that holds
    an integer, an infinity or NaN. *)
Inductive coord := Fin (z : Z) | PInf | NInf | NaN.

#[global] Instance coord_eq_dec : EqDecision coord.
Proof. solve_decision. Defined.

(** A row of the rounded coordinate array [pc_]. *)
Definition voxel : Type := coord * coord * coord.

(** The row of three integers. *)
Definition vox (x y z : Z) : voxel := (Fin x, Fin y, Fin z).

Definition xyz_of (p : point) : xyz := (px p, py p, pz p).

(** [SparseTensor(feats, coords)]: features [F] and coordinates [C]. *)
Record SparseTensor (A B : Type) := { F : list A; C : list B }.
Arguments F {A B} _.
Arguments C {A B} _.

(** The dictionary returned by [process_point_cloud].  Its five keys are
    fixed, so it is a record; [X] is the type of the coordinates of the
    original points and [V] that of the voxel coordinates (collation
    appends a batch index to both). *)
Record feed_dict (X V : Type) := {
  pc : SparseTensor xyz X;
  lidar : SparseTensor point V;
  targets : SparseTensor Z V;
  targets_mapped : SparseTensor Z X;
  inverse_map : SparseTensor nat X
}.
Arguments pc {X V} _.
Arguments lidar {X V} _.
Arguments targets {X V} _.
Arguments targets_mapped {X V} _.
Arguments inverse_map {X V} _.

(** ** NumPy primitives *)

(** [np.round] on a finite value: nearest integer, ties to even. *)
Definition np_round (q : Q) : Z :=
  let n := Qnum q in
  let d := Zpos (Qden q) in
  let f := (n / d)%Z in
  match (2 * (n mod d) ?= d)%Z with
  | Lt => f
  | Gt => (f + 1)%Z
  | Eq => if Z.even f then f else (f + 1)%Z
  end.

(** [np.round(x / voxel_size)] on one finite [x].  NumPy raises nothing on
    a zero divisor: the quotient is the infinity of the sign of [x], and
    NaN for [0 / 0], and [np.round] leaves both as they are. *)
Definition round_quotient (x voxel_size : Q) : coord :=
  if Qeq_bool voxel_size 0 then
    match Qnum x with
    | Z0 => NaN
    | Zpos _ => PInf
    | Zneg _ => NInf
    end
  else Fin (np_round (x / voxel_size)).

(** One row of [np.round(input_point_cloud[:, :3] / voxel_size)]. *)
Definition round_div (voxel_size : Q) (p : point) : voxel :=
  (round_quotient (px p) voxel_size, round_quotient (py p) voxel_size,
   round_quotient (pz p) voxel_size).

(** The smaller of two entries, as [min] reduces them: NaN wins over
    everything. *)
Definition cmin (a b : coord) : coord :=
  match a, b with
  | NaN, _ => NaN
  | _, NaN => NaN
  | NInf, _ => NInf
  | _, NInf => NInf
  | PInf, _ => b
  | _, PInf => a
  | Fin x, Fin y => Fin (Z.min x y)
  end.

(** [a - m] on two entries: the difference of two equal infinities is
    NaN. *)
Definition csub (a m : coord) : coord :=
  match a, m with
  | NaN, _ => NaN
  | _, NaN => NaN
  | Fin x, Fin y => Fin (x - y)
  | PInf, PInf => NaN
  | NInf, NInf => NaN
  | PInf, _ => PInf
  | NInf, _ => NInf
  | Fin _, PInf => NInf
  | Fin _, NInf => PInf
  end.

(** [0 <= a]: false of NaN. *)
Definition cnonneg (a : coord) : Prop :=
  match a with
  | Fin x => (0 <= x)%Z
  | PInf => True
  | NInf => False
  | NaN => False
  end.

(** [m <= a] on two integers. *)
Definition cle (m a : coord) : Prop :=
  match m, a with
  | Fin x, Fin y => (x <= y)%Z
  | _, _ => False
  end.

Definition vmin (a b : voxel) : voxel :=
  let '(ax, ay, az) := a in
  let '(bx, by_, bz) := b in
  (cmin ax bx, cmin ay by_, cmin az bz).

Definition vsub (a m : voxel) : voxel :=
  let '(ax, ay, az) := a in
  let '(mx, my, mz) := m in
  (csub ax mx, csub ay my, csub az mz).

Definition vnonneg (a : voxel) : Prop :=
  let '(ax, ay, az) := a in cnonneg ax /\ cnonneg ay /\ cnonneg az.

Definition vle (m a : voxel) : Prop :=
  let '(mx, my, mz) := m in
  let '(ax, ay, az) := a in cle mx ax /\ cle my ay /\ cle mz az.

(** The row holds three integers. *)
Definition vfinite (v : voxel) : Prop := exists x y z, v = vox x y z.

(** The entry is an infinity or NaN. *)
Definition cnonfinite (a : coord) : Prop :=
  match a with
  | Fin _ => False
  | _ => True
  end.

(** No entry of the row is a number. *)
Definition vnonfinite (v : voxel) : Prop :=
  let '(x, y, z) := v in cnonfinite x /\ cnonfinite y /\ cnonfinite z.

(** [a.min(0, keepdims=1)]: the per-axis minimum over the rows; NumPy raises
    ValueError on an array with no rows. *)
Definition min0 (a : list voxel) : res voxel :=
  match a with
  | [] => Raise ValueError
  | v :: rest => Ok (fold_left vmin rest v)
  end.

(** The rows of [xs] at which the mask is true. *)
Fixpoint select {A} (mask : list bool) (xs : list A) : list A :=
  match mask, xs with
  | b :: mask', x :: xs' =>
      if b then x :: select mask' xs' else select mask' xs'
  | _, _ => []
  end.

(** Boolean-mask indexing [xs[mask]].  A mask of length zero selects no
    row, whatever the number of rows; any other mask whose length is not
    the number of rows raises IndexError. *)
Definition mask_index {A} (xs : list A) (mask : list bool) : res (list A) :=
  if (length mask =? 0)%nat || (length mask =? length xs)%nat
  then Ok (select mask xs)
  else Raise IndexError.

(** Integer-array indexing [xs[inds]] with non-negative indices: IndexError
    on an index out of range. *)
Fixpoint gather {A} (xs : list A) (inds : list nat) : res (list A) :=
  match inds with
  | [] => Ok []
  | i :: inds' =>
      match xs !! i with
      | Some x =>
          match gather xs inds' with
          | Ok r => Ok (x :: r)
          | Raise e => Raise e
          end
      | None => Raise IndexError
      end
  end.

(** The mask [labels_ != ignore_label]. *)
Definition ne_mask (labels_ : list Z) (ignore_label : Z) : list bool :=
  (fun l => negb (l =? ignore_label)%Z) <$> labels_.

(** The positions at which a mask is true, counted from [i]. *)
Fixpoint true_positions (i : nat) (mask : list bool) : list nat :=
  match mask with
  | [] => []
  | b :: mask' =>
      if b then i :: true_positions (S i) mask' else true_positions (S i) mask'
  end.

(** ** process_point_cloud *)

(** What the caller keeps of [sparse_quantize(pc_, feat_, labels_,
    return_index=True, return_invs=True)]: the indices of the
    representatives, their labels, and the inverse map. *)
Definition quantizer : Type :=
  list voxel -> list point -> list Z -> res (list nat * list Z * list nat).

Section Preprocess.

(** torchsparse's [sparse_quantize] is not part of the notebook; the
    pipeline is first defined over any helper that reads its arguments.
    The first statement stores into the input array the column it has
    just read from it, so the contents stay as they are; the array is
    writeable (NumPy raises ValueError on a read-only one).  No statement
    tests the voxel size. *)
Variable quantize : quantizer.

Definition process_point_cloud_with
    (input_point_cloud : list point) (input_labels : list Z)
    (voxel_size : Q) (ignore_label : Z) : res (feed_dict xyz voxel) :=
  (* input_point_cloud[:, 3] = input_point_cloud[:, 3] stores what it reads *)
  (* get rounded coordinates *)
  let pc_ := round_div voxel_size <$> input_point_cloud in
  m ← min0 pc_;
  let pc_ := (fun v => vsub v m) <$> pc_ in
  let labels_ := input_labels in
  let feat_ := input_point_cloud in
  (* filter out unlabeled points *)
  out_pc ← mask_index (xyz_of <$> input_point_cloud)
                      (ne_mask labels_ ignore_label);
  pc_ ← mask_index pc_ (ne_mask labels_ ignore_label);
  feat_ ← mask_index feat_ (ne_mask labels_ ignore_label);
  labels_ ← mask_index labels_ (ne_mask labels_ ignore_label);
  (* sparse quantization: filter out duplicate points after downsampling *)
  '(inds, _, invs) ← quantize pc_ feat_ labels_;
  (* construct members as sparse tensor so that they can be collated *)
  pc ← gather pc_ inds;
  feat ← gather feat_ inds;
  labels ← gather labels_ inds;
  mret {| pc := {| F := out_pc; C := out_pc |};
          lidar := {| F := feat; C := pc |};
          targets := {| F := labels; C := pc |};
          targets_mapped := {| F := labels_; C := out_pc |};
          inverse_map := {| F := invs; C := out_pc |} |}.

(** The pipeline in the order the specification words it: the ignore
    mask first, the origin shift over the points that are left. *)
Definition filter_then_shift_with
    (input_point_cloud : list point) (input_labels : list Z)
    (voxel_size : Q) (ignore_label : Z) : res (feed_dict xyz voxel) :=
  let labels_ := input_labels in
  out_pc ← mask_index (xyz_of <$> input_point_cloud)
                      (ne_mask labels_ ignore_label);
  feat_ ← mask_index input_point_cloud (ne_mask labels_ ignore_label);
  labels_ ← mask_index labels_ (ne_mask labels_ ignore_label);
  let pc_ := round_div voxel_size <$> feat_ in
  m ← min0 pc_;
  let pc_ := (fun v => vsub v m) <$> pc_ in
  '(inds, _, invs) ← quantize pc_ feat_ labels_;
  pc ← gather pc_ inds;
  feat ← gather feat_ inds;
  labels ← gather labels_ inds;
  mret {| pc := {| F := out_pc; C := out_pc |};
          lidar := {| F := feat; C := pc |};
          targets := {| F := labels; C := pc |};
          targets_mapped := {| F := labels_; C := out_pc |};
          inverse_map := {| F := invs; C := out_pc |} |}.

End Preprocess.

(** ** sparse_quantize *)

(** Modelled from the spec: torchsparse's [sparse_quantize], which the
    notebook imports and the source does not contain.  It deduplicates the
    points that share a voxel coordinate, keeps one representative per
    voxel, and records for every point the index of its voxel's
    representative.  The description fixes neither the order of the
    representatives nor the outcome on arrays with no row; this helper
    is one that meets it: it scans the points in order, [seen] holding the
    coordinates of the representatives found so far and [i] the index of
    the next point, and returns the pair of the representatives' indices
    and the inverse map, both empty when there is no row.  What depends
    on those two choices is stated over [quantizes] below instead. *)
Fixpoint quantize_from (i : nat) (seen : list voxel) (coords : list voxel)
  : list nat * list nat :=
  match coords with
  | [] => ([], [])
  | v :: rest =>
      match list_find (eq v) seen with
      | Some (k, _) =>
          let '(inds, invs) := quantize_from (S i) seen rest in
          (inds, k :: invs)
      | None =>
          let '(inds, invs) := quantize_from (S i) (seen ++ [v]) rest in
          (i :: inds, length seen :: invs)
      end
  end.

(** Modelled from the spec: the call [sparse_quantize(pc_, feat_, labels_,
    return_index=True, return_invs=True)] of the absent torchsparse helper,
    returning the representatives' indices, their labels and the inverse
    map.  It reads its arguments and writes to none of them. *)
Definition sparse_quantize : quantizer :=
  fun coords feats labels =>
    let '(inds, invs) := quantize_from 0 [] coords in
    filtered_labels ← gather labels inds;
    mret (inds, filtered_labels, invs).

(** Modelled from the spec: what the description of the absent
    [sparse_quantize] says of a result the helper returns, in whatever
    order it lists the representatives.  The indices [inds] point into
    the coordinates it was given, the representatives they select are
    pairwise distinct, one per voxel, and the inverse map gives for every
    point the position of the representative with the point's own voxel
    coordinate.  The description does not say whether the helper returns
    on arrays with no row. *)
Definition quantizes (q : quantizer) : Prop :=
  forall coords feats labels inds flabels invs,
    q coords feats labels = Ok (inds, flabels, invs) ->
    exists reps,
      gather coords inds = Ok reps /\
      NoDup reps /\
      Forall2 (fun v j => reps !! j = Some v) coords invs.

(** Modelled from the spec: a helper that meets the same description and
    lists the representatives in the reverse of the scanning order. *)
Definition sparse_quantize_reversed : quantizer :=
  fun coords feats labels =>
    let '(inds, invs) := quantize_from 0 [] coords in
    filtered_labels ← gather labels (reverse inds);
    mret (reverse inds, filtered_labels,
          (fun j => length inds - S j) <$> invs).

(** Modelled from the spec: a helper that meets the same description and
    refuses arrays with no row. *)
Definition sparse_quantize_nonempty : quantizer :=
  fun coords feats labels =>
    match coords with
    | [] => Raise ValueError
    | _ :: _ => sparse_quantize coords feats labels
    end.

Definition process_point_cloud := process_point_cloud_with sparse_quantize.

Definition filter_then_shift := filter_then_shift_with sparse_quantize.

(** The defaults of the signature: [voxel_size=0.05, ignore_label=19]. *)
Definition default_voxel_size : Q := 5 # 100.
Definition default_ignore_label : Z := 19.

(** The number of input labels that differ from the ignore value. *)
Definition count_kept (labels : list Z) (ignore_label : Z) : nat :=
  length (filter (fun l => l <> ignore_label) labels).

(** [out] holds, position by position, the rows of [src] at the indices
    [origin]: the provenance of an output array in an input array. *)
Definition derives_from {A} (src : list A) (origin : list nat) (out : list A)
  : Prop :=
  Forall2 (fun i x => src !! i = Some x) origin out.

(** The input row [i] carries a label other than the ignore value. *)
Definition kept_label (labels : list Z) (ignore_label : Z) (i : nat) : Prop :=
  exists l, labels !! i = Some l /\ l <> ignore_label.

(** ** Voxel-aligned points *)

(** The point sits at the integer multiples [k] of the voxel size. *)
Definition aligned (voxel_size : Q) (p : point) (k : Z * Z * Z) : Prop :=
  let '(kx, ky, kz) := k in
  (px p == inject_Z kx * voxel_size)%Q /\
  (py p == inject_Z ky * voxel_size)%Q /\
  (pz p == inject_Z kz * voxel_size)%Q.

(** The feed_dict with no point in any field. *)
Definition empty_feed_dict : feed_dict xyz voxel :=
  {| pc := {| F := []; C := [] |};
     lidar := {| F := []; C := [] |};
     targets := {| F := []; C := [] |};
     targets_mapped := {| F := []; C := [] |};
     inverse_map := {| F := []; C := [] |} |}.

(** ** Sample inputs *)

(** The point at the given multiples of the default voxel size. *)
Definition at_voxel (x y z : Z) : point :=
  {| px := inject_Z x * default_voxel_size;
     py := inject_Z y * default_voxel_size;
     pz := inject_Z z * default_voxel_size;
     intensity := 1 |}.

(** Five points in three voxels; the one at the origin is unlabeled. *)
Definition sample_cloud : list point :=
  [at_voxel 0 0 0; at_voxel 1 1 1; at_voxel 2 1 1; at_voxel 1 1 1;
   at_voxel 2 1 1].
Definition sample_labels : list Z := [19; 0; 3; 0; 3]%Z.

(** What [process_point_cloud] returns on the sample. *)
Definition sample_feed_dict : feed_dict xyz voxel :=
  {| pc := {| F := xyz_of <$> tail sample_cloud;
              C := xyz_of <$> tail sample_cloud |};
     lidar := {| F := [at_voxel 1 1 1; at_voxel 2 1 1];
                 C := [vox 1 1 1; vox 2 1 1] |};
     targets := {| F := [0; 3]%Z; C := [vox 1 1 1; vox 2 1 1] |};
     targets_mapped := {| F := [0; 3; 0; 3]%Z;
                          C := xyz_of <$> tail sample_cloud |};
     inverse_map := {| F := [0; 1; 0; 1];
                       C := xyz_of <$> tail sample_cloud |} |}.

(** Three labeled points in three voxels, the per-axis minimum at zero. *)
Definition aligned_cloud : list point :=
  [at_voxel 0 1 0; at_voxel 1 0 2; at_voxel 2 3 0].
Definition aligned_labels : list Z := [1; 2; 3]%Z.
Definition aligned_multiples : list (Z * Z * Z) :=
  [(0, 1, 0); (1, 0, 2); (2, 3, 0)]%Z.

(** Four points in four voxels, none at the origin; the unlabeled one
    holds the minimum on the x axis. *)
Definition offset_cloud : list point :=
  [at_voxel 3 0 7; at_voxel 5 (-2) 6; at_voxel 4 1 5; at_voxel 2 0 6].
Definition offset_labels : list Z := [1; 2; 3; 19]%Z.

(** What [process_point_cloud] returns on it: the coordinates are shifted
    by the minimum (2, -2, 5) over the four points. *)
Definition offset_feed_dict : feed_dict xyz voxel :=
  {| pc := {| F := xyz_of <$> take 3 offset_cloud;
              C := xyz_of <$> take 3 offset_cloud |};
     lidar := {| F := take 3 offset_cloud;
                 C := [vox 1 2 2; vox 3 0 1; vox 2 3 0] |};
     targets := {| F := [1; 2; 3]%Z; C := [vox 1 2 2; vox 3 0 1; vox 2 3 0] |};
     targets_mapped := {| F := [1; 2; 3]%Z;
                          C := xyz_of <$> take 3 offset_cloud |};
     inverse_map := {| F := [0; 1; 2];
                       C := xyz_of <$> take 3 offset_cloud |} |}.

(** ** sparse_collate_fn and generate_random_batch *)

(** Modelled from the spec: the coordinates of sample number [b] with the
    batch-index column appended. *)
Definition with_batch_index {B} (b : nat) (coords : list B) : list (B * nat) :=
  (fun c => (c, b)) <$> coords.

(** Modelled from the spec: collation of one named field, absent from the
    source (torchsparse): the features are concatenated across the samples
    and so are the coordinates, each sample's rows tagged with the sample's
    position in the batch. *)
Definition sparse_collate_tensors {A B} (ts : list (SparseTensor A B))
  : SparseTensor A (B * nat) :=
  {| F := concat (F <$> ts);
     C := concat (imap (fun b t => with_batch_index b (C t)) ts) |}.

(** Modelled from the spec: torchsparse's [sparse_collate_fn], absent from
    the source, on a list of per-sample feed_dicts: every named field is
    collated on its own. *)
Definition sparse_collate_fn {X V} (lis : list (feed_dict X V))
  : feed_dict (X * nat) (V * nat) :=
  {| pc := sparse_collate_tensors (pc <$> lis);
     lidar := sparse_collate_tensors (lidar <$> lis);
     targets := sparse_collate_tensors (targets <$> lis);
     targets_mapped := sparse_collate_tensors (targets_mapped <$> lis);
     inverse_map := sparse_collate_tensors (inverse_map <$> lis) |}.

(** The batch-index column of a collated tensor. *)
Definition batch_column {A B} (t : SparseTensor A (B * nat)) : list nat :=
  snd <$> C t.

(** The loop of [generate_random_batch]: one [process_point_cloud] call per
    sample, with the default voxel size and ignore label, appended to [lis]
    in order. *)
Fixpoint process_samples (draws : list (list point * list Z))
  : res (list (feed_dict xyz voxel)) :=
  match draws with
  | [] => Ok []
  | (dummy_pc, dummy_label) :: rest =>
      feed_dict ← process_point_cloud dummy_pc dummy_label
                    default_voxel_size default_ignore_label;
      lis ← process_samples rest;
      mret (feed_dict :: lis)
  end.

(** [generate_random_batch]; the random draws of the loop ([batch_size]
    pairs of a [pc_size] x 4 array and [pc_size] labels below
    [num_classes]) are an argument. *)
Definition generate_random_batch (draws : list (list point * list Z))
  : res (feed_dict (xyz * nat) (voxel * nat)) :=
  lis ← process_samples draws;
  mret (sparse_collate_fn lis).

(** One field after collation: the features and the coordinates are the
    concatenation over the samples. *)
Definition concatenated {A B} (ts : list (SparseTensor A B))
    (t : SparseTensor A (B * nat)) : Prop :=
  F t = concat (F <$> ts) /\ fst <$> C t = concat (C <$> ts).

(** The batch-index column takes exactly one value per sample: its
    distinct values are 0, ..., N-1. *)
Definition one_index_per_sample {A B} (ts : list (SparseTensor A B))
    (t : SparseTensor A (B * nat)) : Prop :=
  remove_dups (batch_column t) = seq 0 (length ts).

(** Collation of one field: concatenation, sample [b] tagging each of its
    rows with [b], hence one batch index per sample once no sample is
    empty. *)
Definition collated {A B} (ts : list (SparseTensor A B))
    (t : SparseTensor A (B * nat)) : Prop :=
  concatenated ts t /\
  batch_column t = concat (imap (fun b s => replicate (length (C s)) b) ts) /\
  (Forall (fun s => C s <> []) ts -> one_index_per_sample ts t).

(** A draw of the loop of [generate_random_batch]: [pc_size > 0] rows and
    as many labels, each in [range(num_classes)]. *)
Definition random_draw (num_classes : Z) (d : list point * list Z) : Prop :=
  fst d <> [] /\ length (snd d) = length (fst d) /\
  Forall (fun l => 0 <= l < num_classes)%Z (snd d).

(** ** Inference: predictions[inverse_map] *)

(** [predictions[feed_dict['inverse_map'].F...]] on the collated dictionary
    of a one-sample batch, as the inference cell does. *)
Definition map_predictions {X V} (predictions : list Z)
    (batch : feed_dict X V) : res (list Z) :=
  gather predictions (F (inverse_map batch)).

(** ** Loading the labels *)

(** [np.fromfile(..., dtype=np.int32) & 0xFFFF], one element. *)
Definition low16 (v : Z) : Z := Z.land v 0xFFFF.

(** [label_map[label]], one element.  The table built by
    [create_label_map] (module [utils], not in the source) is an
    argument; indexing past its end raises IndexError. *)
Definition load_label (label_map : list Z) (v : Z) : res Z :=
  match label_map !! Z.to_nat (low16 v) with
  | Some l => Ok l
  | None => Raise IndexError
  end.

(** ** The arrays as mutable objects

    For the effect of [process_point_cloud] on its arguments the arrays
    are objects of a store: a name holds a reference, [a[...] = v] and
    [a -= v] write to the object behind the reference, and indexing by a
    mask or by an index array allocates a new object. *)

Inductive ndarray :=
| Float4 (rows : list point)
| Float3 (rows : list xyz)
| Voxels (rows : list voxel)
| Ints (xs : list Z)
| Indices (xs : list nat).

Abbreviation ref := nat.

(** The store: the object of reference [r] is at position [r]. *)
Abbreviation heap := (list ndarray).

(** A statement runs on a store and leaves an outcome and a store; an
    exception keeps the store as the failing step found it. *)
Definition M (A : Type) : Type := heap -> res A * heap.

#[global] Instance M_ret : MRet M := fun A a h => (Ok a, h).
#[global] Instance M_bind : MBind M :=
  fun A B f m h =>
    match m h with
    | (Ok a, h') => f a h'
    | (Raise e, h') => (Raise e, h')
    end.

Definition lift {A} (r : res A) : M A := fun h => (r, h).

Definition alloc (a : ndarray) : M ref :=
  fun h => (Ok (length h), h ++ [a]).

Definition load (r : ref) : M ndarray :=
  fun h => match h !! r with
           | Some a => (Ok a, h)
           | None => (Raise TypeError, h)
           end.

Definition store (r : ref) (a : ndarray) : M unit :=
  fun h => match h !! r with
           | Some _ => (Ok tt, <[r:=a]> h)
           | None => (Raise TypeError, h)
           end.

Definition as_float4 (a : ndarray) : res (list point) :=
  match a with Float4 rows => Ok rows | _ => Raise TypeError end.
Definition as_float3 (a : ndarray) : res (list xyz) :=
  match a with Float3 rows => Ok rows | _ => Raise TypeError end.
Definition as_voxels (a : ndarray) : res (list voxel) :=
  match a with Voxels rows => Ok rows | _ => Raise TypeError end.
Definition as_ints (a : ndarray) : res (list Z) :=
  match a with Ints xs => Ok xs | _ => Raise TypeError end.
Definition as_indices (a : ndarray) : res (list nat) :=
  match a with Indices xs => Ok xs | _ => Raise TypeError end.

(** The rows with column 3 replaced by [col]; the shapes must agree. *)
Definition set_column3 (rows : list point) (col : list Q) : res (list point) :=
  if (length col =? length rows)%nat
  then Ok (zip_with (fun p v => {| px := px p; py := py p; pz := pz p;
                                   intensity := v |}) rows col)
  else Raise ValueError.

(** [dst[:, 3] = src[:, 3]] *)
Definition assign_column3 (dst src : ref) : M unit :=
  s ← load src;
  srows ← lift (as_float4 s);
  d ← load dst;
  drows ← lift (as_float4 d);
  rows ← lift (set_column3 drows (intensity <$> srows));
  store dst (Float4 rows).

(** [np.round(a[:, :3] / voxel_size)]: the slice is a view, the quotient
    and the rounding give a new array. *)
Definition round_divide (a : ref) (voxel_size : Q) : M ref :=
  arr ← load a;
  rows ← lift (as_float4 arr);
  alloc (Voxels (round_div voxel_size <$> rows)).

(** [a -= a.min(0, keepdims=1)], in place. *)
Definition isub_min0 (a : ref) : M unit :=
  arr ← load a;
  rows ← lift (as_voxels arr);
  m ← lift (min0 rows);
  store a (Voxels ((fun v => vsub v m) <$> rows)).

(** [labels_ != ignore_label] *)
Definition ne_mask_of (labels_ : ref) (ignore_label : Z) : M (list bool) :=
  arr ← load labels_;
  l ← lift (as_ints arr);
  mret (ne_mask l ignore_label).

Definition nd_mask_index (a : ndarray) (mask : list bool) : res ndarray :=
  match a with
  | Float4 rows => Float4 <$> mask_index rows mask
  | Float3 rows => Float3 <$> mask_index rows mask
  | Voxels rows => Voxels <$> mask_index rows mask
  | Ints xs => Ints <$> mask_index xs mask
  | Indices xs => Indices <$> mask_index xs mask
  end.

Definition nd_gather (a : ndarray) (inds : list nat) : res ndarray :=
  match a with
  | Float4 rows => Float4 <$> gather rows inds
  | Float3 rows => Float3 <$> gather rows inds
  | Voxels rows => Voxels <$> gather rows inds
  | Ints xs => Ints <$> gather xs inds
  | Indices xs => Indices <$> gather xs inds
  end.

(** [a[mask]]: a new array. *)
Definition getitem_mask (a : ref) (mask : list bool) : M ref :=
  arr ← load a;
  sel ← lift (nd_mask_index arr mask);
  alloc sel.

(** [a[mask, :3]]: a new array. *)
Definition getitem_mask_xyz (a : ref) (mask : list bool) : M ref :=
  arr ← load a;
  rows ← lift (as_float4 arr);
  sel ← lift (mask_index (xyz_of <$> rows) mask);
  alloc (Float3 sel).

(** [a[inds]]: a new array. *)
Definition getitem_index (a inds : ref) : M ref :=
  arr ← load a;
  i ← load inds;
  idx ← lift (as_indices i);
  sel ← lift (nd_gather arr idx);
  alloc sel.

(** A SparseTensor and a feed_dict hold references to their arrays. *)
Record tensor_ref := { F_ref : ref; C_ref : ref }.

Record feed_dict_ref := {
  pc_ref : tensor_ref;
  lidar_ref : tensor_ref;
  targets_ref : tensor_ref;
  targets_mapped_ref : tensor_ref;
  inverse_map_ref : tensor_ref
}.

(** The helper as a store transformer: it receives the references of
    [pc_], [feat_] and [labels_] and returns those of its three results. *)
Definition quantizer_st : Type := ref -> ref -> ref -> M (ref * ref * ref).

(** The helper leaves every object other than its three arguments as it
    was, whether it returns or raises; it may write to the arguments
    themselves. *)
Definition writes_only_arguments (q : quantizer_st) : Prop :=
  forall a b c h r,
    r < length h -> r <> a -> r <> b -> r <> c ->
    (q a b c h).2 !! r = h !! r.

(** The store [h'] still holds, unchanged, the first [n] objects of [h]. *)
Definition keeps (n : nat) (h h' : heap) : Prop :=
  n <= length h' /\ forall r, r < n -> h' !! r = h !! r.

(** The statement [m] leaves the first [n] objects of any store as they
    were, returning or raising, and what it returns satisfies [Q]. *)
Definition frames {A} (n : nat) (m : M A) (Q : A -> Prop) : Prop :=
  forall h, n <= length h ->
    keeps n h (m h).2 /\
    match (m h).1 with Ok a => Q a | Raise _ => True end.

Section PreprocessStore.

Variable quantize_st : quantizer_st.

(** [process_point_cloud], statement by statement, on the store. *)
Definition process_point_cloud_st (input_point_cloud input_labels : ref)
    (voxel_size : Q) (ignore_label : Z) : M feed_dict_ref :=
  assign_column3 input_point_cloud input_point_cloud;;
  (* get rounded coordinates *)
  pc_ ← round_divide input_point_cloud voxel_size;
  isub_min0 pc_;;
  let labels_ := input_labels in
  let feat_ := input_point_cloud in
  (* filter out unlabeled points *)
  mask ← ne_mask_of labels_ ignore_label;
  out_pc ← getitem_mask_xyz input_point_cloud mask;
  mask ← ne_mask_of labels_ ignore_label;
  pc_ ← getitem_mask pc_ mask;
  mask ← ne_mask_of labels_ ignore_label;
  feat_ ← getitem_mask feat_ mask;
  mask ← ne_mask_of labels_ ignore_label;
  labels_ ← getitem_mask labels_ mask;
  (* sparse quantization: filter out duplicate points after downsampling *)
  '(inds, _, inverse_map) ← quantize_st pc_ feat_ labels_;
  (* construct members as sparse tensor so that they can be collated *)
  pc ← getitem_index pc_ inds;
  feat ← getitem_index feat_ inds;
  labels ← getitem_index labels_ inds;
  mret {| pc_ref := {| F_ref := out_pc; C_ref := out_pc |};
          lidar_ref := {| F_ref := feat; C_ref := pc |};
          targets_ref := {| F_ref := labels; C_ref := pc |};
          targets_mapped_ref := {| F_ref := labels_; C_ref := out_pc |};
          inverse_map_ref := {| F_ref := inverse_map; C_ref := out_pc |} |}.

End PreprocessStore.

(** Modelled from the spec: the absent helper [sparse_quantize] on the
    store.  It reads its three arguments and allocates its three
    results. *)
Definition sparse_quantize_st : quantizer_st :=
  fun pc_ feat_ labels_ =>
    a ← load pc_;
    coords ← lift (as_voxels a);
    f ← load feat_;
    feats ← lift (as_float4 f);
    l ← load labels_;
    labels ← lift (as_ints l);
    '(inds, flabels, invs) ← lift (sparse_quantize coords feats labels);
    inds ← alloc (Indices inds);
    flabels ← alloc (Ints flabels);
    invs ← alloc (Indices invs);
    mret (inds, flabels, invs).

(** Reading a feed_dict of references back from the store. *)
Definition read_as {A} (as_ : ndarray -> res A) (h : heap) (r : ref)
  : option A :=
  match h !! r with
  | Some a => match as_ a with Ok x => Some x | Raise _ => None end
  | None => None
  end.

Definition deref_feed_dict (h : heap) (d : feed_dict_ref)
  : option (feed_dict xyz voxel) :=
  out_pc ← read_as as_float3 h (F_ref (pc_ref d));
  out_pc_c ← read_as as_float3 h (C_ref (pc_ref d));
  feat ← read_as as_float4 h (F_ref (lidar_ref d));
  pcv ← read_as as_voxels h (C_ref (lidar_ref d));
  labels ← read_as as_ints h (F_ref (targets_ref d));
  pcv' ← read_as as_voxels h (C_ref (targets_ref d));
  labels_ ← read_as as_ints h (F_ref (targets_mapped_ref d));
  tm_c ← read_as as_float3 h (C_ref (targets_mapped_ref d));
  invs ← read_as as_indices h (F_ref (inverse_map_ref d));
  inv_c ← read_as as_float3 h (C_ref (inverse_map_ref d));
  Some {| pc := {| F := out_pc; C := out_pc_c |};
          lidar := {| F := feat; C := pcv |};
          targets := {| F := labels; C := pcv' |};
          targets_mapped := {| F := labels_; C := tm_c |};
          inverse_map := {| F := invs; C := inv_c |} |}.

(** A store with the sample cloud at reference 0 and its labels at 1. *)
Definition sample_heap : heap := [Float4 sample_cloud; Ints sample_labels].

(** ** The data-loading cell *)

(** [np.fromfile(..., dtype=np.float32).reshape(-1, 4)]: the flat array
    cut into rows of four; ValueError when its size is no multiple of
    four. *)
Fixpoint reshape4 (flat : list Q) : res (list point) :=
  match flat with
  | [] => Ok []
  | x :: y :: z :: i :: rest =>
      match reshape4 rest with
      | Ok rows => Ok ({| px := x; py := y; pz := z; intensity := i |} :: rows)
      | Raise e => Raise e
      end
  | _ => Raise ValueError
  end.

(** The flat array of a cloud, row after row. *)
Definition ravel (rows : list point) : list Q :=
  concat ((fun p => [px p; py p; pz p; intensity p]) <$> rows).

(** [label_map[np.fromfile(..., dtype=np.int32) & 0xFFFF]], element by
    element. *)
Fixpoint load_labels (label_map : list Z) (raw : list Z) : res (list Z) :=
  match raw with
  | [] => Ok []
  | v :: rest =>
      l ← load_label label_map v;
      ls ← load_labels label_map rest;
      mret (l :: ls)
  end.

(** The cell that loads the prepared data: the point file, the label file
    through the label map, and the one-sample batch. *)
Definition load_sample (label_map : list Z) (flat : list Q) (raw : list Z)
  : res (feed_dict (xyz * nat) (voxel * nat)) :=
  point_cloud ← reshape4 flat;
  label ← load_labels label_map raw;
  fd ← process_point_cloud point_cloud label
         default_voxel_size default_ignore_label;
  mret (sparse_collate_fn [fd]).

(** ** The inference and plotting cells *)

(** The twenty colours of [color_map], one per class of [0, 19]. *)
Definition color_map : list string :=
  ["#f59664"; "#f5e664"; "#963c1e";
   "#b41e50"; "#ff0000"; "#1e1eff";
   "#c828ff"; "#5a1e96"; "#ff00ff";
   "#ff96ff"; "#4b004b"; "#4b00af";
   "#00c8ff"; "#3278ff"; "#00af00";
   "#003c87"; "#50f096"; "#96f0ff";
   "#0000ff"; "#ffffff"]%string.

(** The index of the first largest score among [rest], entry number [i]
    onwards, given the best index and score so far. *)
Fixpoint argmax_from (i best : nat) (score : Q) (rest : list Q) : nat :=
  match rest with
  | [] => best
  | x :: rest' =>
      if Qle_bool x score then argmax_from (S i) best score rest'
      else argmax_from (S i) i x rest'
  end.

(** One row of [outputs.argmax(1)]: the first index of the largest score;
    a row with no class raises. *)
Definition argmax (row : list Q) : res nat :=
  match row with
  | [] => Raise IndexError
  | x :: rest => Ok (argmax_from 1 0 x rest)
  end.

(** [outputs.argmax(1)] *)
Fixpoint argmax_rows (outputs : list (list Q)) : res (list nat) :=
  match outputs with
  | [] => Ok []
  | row :: rest =>
      c ← argmax row;
      cs ← argmax_rows rest;
      mret (c :: cs)
  end.

(** The colours handed to the scatter plot:
    [color_map[predictions[inverse_map]]] with
    [predictions = outputs.argmax(1)]. *)
Definition point_colors {X V} (outputs : list (list Q))
    (batch : feed_dict X V) : res (list string) :=
  predictions ← argmax_rows outputs;
  predictions ← gather predictions (F (inverse_map batch));
  gather color_map predictions.

(** The per-axis minimum of some voxel is attained on axis x, y and z. *)
Definition attains_origin (coords : list voxel) : Prop :=
  (exists y z, (Fin 0, y, z) ∈ coords) /\
  (exists x z, (x, Fin 0, z) ∈ coords) /\
  (exists x y, (x, y, Fin 0) ∈ coords).

(** Two helpers return the same representatives and inverse map. *)
Definition same_indices (q1 q2 : quantizer) : Prop :=
  forall coords feats labels,
    (fun r => (r.1.1, r.2)) <$> q1 coords feats labels
    = (fun r => (r.1.1, r.2)) <$> q2 coords feats labels.


(** The arrays that [process_point_cloud] builds for its feed_dict are
    objects of reference at least [n], and the tensors share them as the
    constructor calls do: one array [out_pc] for the coordinates of 'pc',
    'targets_mapped' and 'inverse_map' and for the features of 'pc', one
    array [pc] for the coordinates of 'lidar' and 'targets'. *)
Definition fresh_and_shared (n : nat) (d : feed_dict_ref) : Prop :=
  n <= F_ref (pc_ref d) /\ n <= F_ref (lidar_ref d) /\
  n <= C_ref (lidar_ref d) /\ n <= F_ref (targets_ref d) /\
  n <= F_ref (targets_mapped_ref d) /\
  C_ref (pc_ref d) = F_ref (pc_ref d) /\
  C_ref (targets_mapped_ref d) = F_ref (pc_ref d) /\
  C_ref (inverse_map_ref d) = F_ref (pc_ref d) /\
  C_ref (targets_ref d) = C_ref (lidar_ref d).


(** * Properties *)

(** ** The outcome monad *)

Lemma res_bind_Ok {A B} (m : res A) (f : A -> res B) (b : B) :
  m ≫= f = Ok b -> exists a, m = Ok a /\ f a = Ok b.
Proof. destruct m as [a|e]; simpl; [eauto | discriminate]. Qed.

Lemma Ok_inj {A} (a b : A) : Ok a = Ok b -> a = b.
Proof. intros [= ->]. reflexivity. Qed.

(** Peel the binds of a hypothesis [_ = Ok _] from the outside in. *)
Ltac res_inv H :=
  repeat match type of H with
  | (_ ≫= _) = Ok _ =>
      let a := fresh "a" in
      let Ha := fresh "Ha" in
      apply res_bind_Ok in H as (a & Ha & H)
  | (let '(_, _) := ?p in _) = Ok _ => destruct p
  | mret _ = Ok _ => apply Ok_inj in H
  end.

(** ** Boolean masks and index arrays *)

Lemma mask_index_Ok {A} (xs : list A) mask r :
  mask_index xs mask = Ok r ->
  (length mask = length xs \/ mask = []) /\ r = select mask xs.
Proof.
  unfold mask_index. destruct (Nat.eqb_spec (length mask) 0) as [E0|E0]; simpl.
  - intros [= <-]. split; [right; destruct mask; [reflexivity|discriminate]|].
    reflexivity.
  - destruct (Nat.eqb_spec (length mask) (length xs)); [|discriminate].
    intros [= <-]. auto.
Qed.

Lemma mask_index_same_length {A} (xs : list A) mask :
  length mask = length xs -> mask_index xs mask = Ok (select mask xs).
Proof.
  intros E. unfold mask_index. rewrite E, Nat.eqb_refl, orb_true_r.
  reflexivity.
Qed.

(** A mask of length zero selects nothing. *)
Lemma mask_index_nil {A} (xs : list A) : mask_index xs [] = Ok [].
Proof. reflexivity. Qed.

Lemma mask_index_returns {A} (xs : list A) mask :
  length mask = length xs \/ mask = [] ->
  mask_index xs mask = Ok (select mask xs).
Proof.
  intros [E| ->]; [apply mask_index_same_length, E | reflexivity].
Qed.

Lemma select_fmap {A B} (f : A -> B) mask (xs : list A) :
  select mask (f <$> xs) = f <$> select mask xs.
Proof.
  revert xs. induction mask as [|b mask IH]; intros [|x xs]; simpl; auto.
  destruct b; simpl; rewrite IH; reflexivity.
Qed.

Lemma select_nil_r {A} mask : select mask (@nil A) = [].
Proof. destruct mask; reflexivity. Qed.

Lemma select_all_false {A} mask (xs : list A) :
  Forall (fun b => b = false) mask -> select mask xs = [].
Proof.
  intros H. revert xs. induction H as [|b mask -> _ IH]; intros [|x xs];
    simpl; auto.
Qed.

Lemma select_all_true {A} mask (xs : list A) :
  length mask = length xs -> Forall (fun b => b = true) mask ->
  select mask xs = xs.
Proof.
  intros E H. revert xs E. induction H as [|b mask -> _ IH]; intros [|x xs];
    simpl; try discriminate; auto.
  intros [= E]. rewrite IH; auto.
Qed.

Lemma select_length {A B} mask (xs : list A) (ys : list B) :
  length xs = length ys -> length (select mask xs) = length (select mask ys).
Proof.
  revert xs ys. induction mask as [|b mask IH]; intros [|x xs] [|y ys];
    simpl; try discriminate; auto.
  intros [= E]. destruct b; simpl; auto.
Qed.

(** The selected rows sit, in order, at the true positions of the mask. *)
Lemma select_true_positions {A} mask (xs : list A) i :
  length mask <= length xs ->
  Forall2 (fun k x => i <= k /\ xs !! (k - i) = Some x)
          (true_positions i mask) (select mask xs).
Proof.
  revert xs i. induction mask as [|b mask IH]; intros [|x xs] i; simpl;
    try lia; try constructor.
  intros E. apply le_S_n in E.
  assert (Hshift :
    Forall2 (fun k y => i <= k /\ (x :: xs) !! (k - i) = Some y)
            (true_positions (S i) mask) (select mask xs)).
  { eapply Forall2_impl; [apply (IH xs (S i) E)|].
    intros k y [Hk Hy]. split; [lia|].
    replace (k - i) with (S (k - S i)) by lia. exact Hy. }
  destruct b; [constructor|]; auto.
  split; [lia|]. rewrite Nat.sub_diag. reflexivity.
Qed.

Lemma true_positions_mask mask i :
  Forall (fun k => i <= k /\ mask !! (k - i) = Some true)
         (true_positions i mask).
Proof.
  revert i. induction mask as [|b mask IH]; intros i; simpl; [constructor|].
  assert (Hshift :
    Forall (fun k => i <= k /\ (b :: mask) !! (k - i) = Some true)
           (true_positions (S i) mask)).
  { eapply Forall_impl; [apply (IH (S i))|].
    intros k [Hk Hy]. split; [lia|].
    replace (k - i) with (S (k - S i)) by lia. exact Hy. }
  destruct b; [constructor|]; auto.
  split; [lia|]. rewrite Nat.sub_diag. reflexivity.
Qed.

Lemma gather_Forall2 {A} (xs : list A) inds r :
  gather xs inds = Ok r <-> Forall2 (fun i x => xs !! i = Some x) inds r.
Proof.
  revert r. induction inds as [|i inds IH]; intros r; simpl.
  - split; [intros [= <-]; constructor | intros H; inversion H; reflexivity].
  - split.
    + destruct (xs !! i) as [x|] eqn:Ex; [|discriminate].
      destruct (gather xs inds) as [r'|e]; [|discriminate].
      intros [= <-]. constructor; [assumption | apply IH; reflexivity].
    + intros H. inversion H as [|? x ? r' Hx Hr]; subst.
      rewrite Hx. apply IH in Hr. rewrite Hr. reflexivity.
Qed.

Lemma gather_in_range {A} (xs : list A) inds :
  Forall (fun i => i < length xs) inds -> exists r, gather xs inds = Ok r.
Proof.
  induction 1 as [|i inds Hi _ [r IH]]; simpl; [eauto|].
  destruct (lookup_lt_is_Some_2 xs i Hi) as [x ->]. rewrite IH. eauto.
Qed.

Lemma gather_seq {A} (xs pre : list A) :
  gather (pre ++ xs) (seq (length pre) (length xs)) = Ok xs.
Proof.
  revert pre. induction xs as [|x xs IH]; intros pre; simpl; [reflexivity|].
  rewrite list_lookup_middle by reflexivity.
  specialize (IH (pre ++ [x])). rewrite length_app in IH. simpl in IH.
  rewrite Nat.add_1_r in IH. rewrite <- app_assoc in IH. simpl in IH.
  rewrite IH. reflexivity.
Qed.

Lemma gather_all {A} (xs : list A) : gather xs (seq 0 (length xs)) = Ok xs.
Proof. exact (gather_seq xs []). Qed.

(** ** The per-axis minimum *)

(** With a voxel size other than zero every rounded quotient is an
    integer. *)
Lemma round_div_finite vs p : Qeq_bool vs 0 = false -> vfinite (round_div vs p).
Proof.
  intros Hvs. unfold round_div, round_quotient. rewrite Hvs.
  do 3 eexists. reflexivity.
Qed.

Lemma vle_refl v : vfinite v -> vle v v.
Proof. intros (x & y & z & ->). simpl. lia. Qed.

Lemma vle_finite m a : vle m a -> vfinite m /\ vfinite a.
Proof.
  destruct m as [[[mx| | |] [my| | |]] [mz| | |]],
           a as [[[ax| | |] [ay| | |]] [az| | |]]; simpl; try tauto.
  intros _. split; do 3 eexists; reflexivity.
Qed.

Lemma vmin_finite a b : vfinite a -> vfinite b -> vfinite (vmin a b).
Proof.
  intros (x & y & z & ->) (x' & y' & z' & ->). do 3 eexists. reflexivity.
Qed.

Lemma vle_vmin m a b :
  vfinite a -> vfinite b -> vle m (vmin a b) -> vle m a /\ vle m b.
Proof.
  intros (x & y & z & ->) (x' & y' & z' & ->).
  destruct m as [[[mx| | |] [my| | |]] [mz| | |]]; simpl; try tauto. lia.
Qed.

Lemma fold_left_vmin_le rest v :
  vfinite v -> Forall vfinite rest ->
  vle (fold_left vmin rest v) v /\ Forall (vle (fold_left vmin rest v)) rest.
Proof.
  intros Hv Hrest. revert v Hv.
  induction Hrest as [|w rest Hw _ IH]; intros v Hv; simpl.
  - split; [apply vle_refl, Hv | constructor].
  - destruct (IH (vmin v w) (vmin_finite _ _ Hv Hw)) as [H1 H2].
    apply vle_vmin in H1 as [Hv' Hw']; auto.
Qed.

(** Over rows of integers the minimum is below every row, axis by axis. *)
Lemma min0_le a m : Forall vfinite a -> min0 a = Ok m -> Forall (vle m) a.
Proof.
  intros Hfin. destruct a as [|v rest]; simpl; [discriminate|].
  apply Forall_cons in Hfin as [Hv Hrest].
  intros [= <-]. destruct (fold_left_vmin_le rest v Hv Hrest). auto.
Qed.

Lemma min0_nonempty a : a <> [] -> exists m, min0 a = Ok m.
Proof. destruct a; [congruence | simpl; eauto]. Qed.

Lemma vsub_nonneg m v : vle m v -> vnonneg (vsub v m).
Proof.
  intros H. destruct (vle_finite _ _ H) as [(x & y & z & ->) (a & b & c & ->)].
  simpl in *. lia.
Qed.

Lemma select_Forall {A} (P : A -> Prop) mask xs :
  Forall P xs -> Forall P (select mask xs).
Proof.
  intros H. revert mask. induction H as [|x xs Hx _ IH]; intros [|b mask];
    simpl; try constructor.
  destruct b; [constructor|]; auto.
Qed.

Lemma gather_Forall {A} (P : A -> Prop) xs inds r :
  Forall P xs -> gather xs inds = Ok r -> Forall P r.
Proof.
  intros H Hg. apply gather_Forall2 in Hg.
  induction Hg as [|i x inds r Hx _ IH]; constructor; auto.
  exact (Forall_lookup_1 _ _ _ _ H Hx).
Qed.

Lemma gather_length {A} (xs : list A) inds r :
  gather xs inds = Ok r -> length r = length inds.
Proof.
  intros Hg. apply gather_Forall2 in Hg. symmetry.
  eapply Forall2_length; eauto.
Qed.

(** Indexing twice: when [sel] holds the rows of [src] at the indices
    [kept], the rows [sel[inds]] are the rows of [src] at [kept[inds]]. *)
Lemma gather_compose {A} (src sel : list A) kept inds reps out :
  Forall2 (fun k x => src !! k = Some x) kept sel ->
  gather kept inds = Ok reps ->
  gather sel inds = Ok out ->
  Forall2 (fun k x => src !! k = Some x) reps out.
Proof.
  intros Hsel Hreps Hout.
  apply gather_Forall2 in Hreps. apply gather_Forall2 in Hout.
  revert out Hout. induction Hreps as [|i k inds reps Hk _ IH]; intros out Hout.
  - inversion Hout. constructor.
  - inversion Hout as [|? x ? out' Hx Hrest]; subst. constructor; auto.
    exact (Forall2_lookup_lr _ kept sel i k x Hsel Hk Hx).
Qed.

Lemma gather_same_shape {A B} (xs : list A) (ys : list B) inds r :
  length xs = length ys -> gather xs inds = Ok r ->
  exists r', gather ys inds = Ok r'.
Proof.
  intros E Hg. apply gather_in_range. apply gather_Forall2 in Hg.
  induction Hg as [|i x inds r Hx _ IH]; constructor; auto.
  rewrite <- E. eapply lookup_lt_Some; eauto.
Qed.

(** ** The shape of a successful run *)

Section PreprocessFacts.

Variable quantize : quantizer.

(** Inversion of a run that returns: the shapes agreed, the minimum was
    taken over the rounded coordinates of all the input rows, and the
    fields are the gathered rows of the masked arrays. *)
Lemma process_point_cloud_with_Ok cloud labels vs ign fd :
  process_point_cloud_with quantize cloud labels vs ign = Ok fd ->
  exists m inds flabels invs pcv feat labs,
    (length labels = length cloud \/ labels = []) /\
    min0 (round_div vs <$> cloud) = Ok m /\
    quantize
      (select (ne_mask labels ign)
              ((fun v => vsub v m) <$> (round_div vs <$> cloud)))
      (select (ne_mask labels ign) cloud)
      (select (ne_mask labels ign) labels) = Ok (inds, flabels, invs) /\
    gather (select (ne_mask labels ign)
                   ((fun v => vsub v m) <$> (round_div vs <$> cloud)))
           inds = Ok pcv /\
    gather (select (ne_mask labels ign) cloud) inds = Ok feat /\
    gather (select (ne_mask labels ign) labels) inds = Ok labs /\
    fd = {| pc := {| F := select (ne_mask labels ign) (xyz_of <$> cloud);
                     C := select (ne_mask labels ign) (xyz_of <$> cloud) |};
            lidar := {| F := feat; C := pcv |};
            targets := {| F := labs; C := pcv |};
            targets_mapped :=
              {| F := select (ne_mask labels ign) labels;
                 C := select (ne_mask labels ign) (xyz_of <$> cloud) |};
            inverse_map :=
              {| F := invs;
                 C := select (ne_mask labels ign) (xyz_of <$> cloud) |} |}.
Proof.
  unfold process_point_cloud_with.
  intros H. res_inv H. subst fd.
  repeat match goal with
  | Hm : mask_index _ _ = Ok _ |- _ =>
      let Hlen := fresh "Hlen" in
      apply mask_index_Ok in Hm as [Hlen ->]
  end.
  assert (Hshape : length labels = length cloud \/ labels = []).
  { match goal with
    | Hl : length (ne_mask labels ign) = length cloud \/ _ |- _ =>
        destruct Hl as [Hl|Hl]; [left | right]
    end.
    - unfold ne_mask in *. rewrite length_fmap in *. assumption.
    - unfold ne_mask in *. destruct labels; [reflexivity | discriminate]. }
  do 7 eexists. split; [exact Hshape|]. repeat split; eauto.
Qed.

(** The labels of a run that returns are no more than the points. *)
Lemma labels_shape_le {A} (labels : list Z) (xs : list A) :
  length labels = length xs \/ labels = [] -> length labels <= length xs.
Proof. intros [->| ->]; simpl; lia. Qed.

End PreprocessFacts.

(** ** Properties that hold for any quantization helper *)

Section PreprocessTheorems.

Variable quantize : quantizer.

Lemma kept_positions labels ign :
  Forall (kept_label labels ign) (true_positions 0 (ne_mask labels ign)).
Proof.
  eapply Forall_impl; [apply true_positions_mask|].
  intros k [_ Hk]. rewrite Nat.sub_0_r in Hk. unfold ne_mask in Hk.
  rewrite list_lookup_fmap in Hk.
  destruct (labels !! k) as [l|] eqn:El; [|discriminate].
  exists l. split; [exact El|]. simpl in Hk.
  injection Hk as Hk. apply negb_true_iff in Hk. apply Z.eqb_neq. exact Hk.
Qed.

Lemma select_derives {A} (xs : list A) labels ign :
  length labels <= length xs ->
  derives_from xs (true_positions 0 (ne_mask labels ign))
               (select (ne_mask labels ign) xs).
Proof.
  intros E. unfold derives_from.
  eapply Forall2_impl.
  - apply select_true_positions. unfold ne_mask.
    rewrite length_fmap. exact E.
  - intros k x [_ Hk]. rewrite Nat.sub_0_r in Hk. exact Hk.
Qed.


(** C2: every entry of 'pc', 'targets_mapped', 'lidar' and 'targets' in a
    returned feed_dict is the row of an input point whose label differs
    from the ignore value; no entry comes from an ignored point. *)
Theorem ignored_points_absent cloud labels vs ign fd :
  process_point_cloud_with quantize cloud labels vs ign = Ok fd ->
  exists (m : voxel) (kept reps : list nat),
    min0 (round_div vs <$> cloud) = Ok m /\
    Forall (kept_label labels ign) kept /\
    Forall (kept_label labels ign) reps /\
    derives_from (xyz_of <$> cloud) kept (F (pc fd)) /\
    C (pc fd) = F (pc fd) /\
    derives_from labels kept (F (targets_mapped fd)) /\
    C (targets_mapped fd) = F (pc fd) /\
    derives_from cloud reps (F (lidar fd)) /\
    derives_from ((fun p => vsub (round_div vs p) m) <$> cloud) reps
                 (C (lidar fd)) /\
    derives_from labels reps (F (targets fd)) /\
    C (targets fd) = C (lidar fd) /\
    Forall (fun l => l <> ign) (F (targets fd)) /\
    Forall (fun l => l <> ign) (F (targets_mapped fd)).
Proof.
  intros H. apply process_point_cloud_with_Ok in H
    as (m & inds & fl & invs & pcv & feat & labs & Hlen & Hm & _ & Hpc
        & Hfeat & Hlabs & ->).
  apply labels_shape_le in Hlen.
  simpl. set (kept := true_positions 0 (ne_mask labels ign)).
  pose proof (kept_positions labels ign) as Hkept. fold kept in Hkept.
  pose proof (select_derives cloud labels ign Hlen) as Dcloud.
  pose proof (select_derives labels labels ign (le_n _)) as Dlabels.
  pose proof (select_derives (xyz_of <$> cloud) labels ign) as Dxyz.
  rewrite length_fmap in Dxyz. specialize (Dxyz Hlen).
  pose proof (select_derives
    ((fun p => vsub (round_div vs p) m) <$> cloud) labels ign) as Dvox.
  rewrite length_fmap in Dvox. specialize (Dvox Hlen).
  rewrite <- list_fmap_compose in Hpc.
  change ((fun v => vsub v m) ∘ round_div vs)
    with (fun p => vsub (round_div vs p) m) in Hpc.
  fold kept in Dcloud, Dlabels, Dxyz, Dvox.
  destruct (gather_same_shape (select (ne_mask labels ign) cloud) kept
              inds feat) as [reps Hreps];
    [symmetry; eapply Forall2_length; exact Dcloud | exact Hfeat |].
  assert (Hrk : Forall (kept_label labels ign) reps)
    by (eapply gather_Forall; eauto).
  assert (Dtargets : derives_from labels reps labs)
    by (eapply gather_compose; eauto).
  exists m, kept, reps. repeat split; auto.
  - eapply gather_compose; eauto.
  - eapply gather_compose; eauto.
  - clear -Dtargets Hrk. induction Dtargets as [|k l reps labs Hk _ IH];
      constructor.
    + apply Forall_cons in Hrk as [(l' & Hl' & Hne) _]. congruence.
    + apply IH. apply Forall_cons in Hrk as [_ Hrk]. exact Hrk.
  - clear -Dlabels Hkept. induction Dlabels as [|k l kept labs Hk _ IH];
      constructor.
    + apply Forall_cons in Hkept as [(l' & Hl' & Hne) _]. congruence.
    + apply IH. apply Forall_cons in Hkept as [_ Hkept]. exact Hkept.
Qed.

End PreprocessTheorems.



Lemma ignored_points_absent_witness :
  Forall (fun l => l <> default_ignore_label) [0; 3; 0; 3]%Z.
Proof.
  destruct (ignored_points_absent sparse_quantize sample_cloud sample_labels
              default_voxel_size default_ignore_label sample_feed_dict)
    as (m & kept & reps & H).
  - vm_compute. reflexivity.
  - apply H.
Defined.

(** ** The quantization helper *)

(** The scan keeps one representative per voxel: the coordinates [new] of
    the representatives it adds sit at the returned indices, the
    representatives are pairwise distinct, and the inverse map sends every
    point to a representative with the point's own voxel coordinate. *)
Lemma quantize_from_spec coords : forall i seen inds invs,
  quantize_from i seen coords = (inds, invs) ->
  NoDup seen ->
  exists new,
    Forall2 (fun k v => i <= k /\ coords !! (k - i) = Some v) inds new /\
    NoDup (seen ++ new) /\
    Forall2 (fun v j => (seen ++ new) !! j = Some v) coords invs.
Proof.
  induction coords as [|v rest IH]; intros i seen inds invs; simpl.
  - intros [= <- <-] Hnd. exists []. rewrite app_nil_r.
    repeat split; auto; constructor.
  - destruct (list_find (eq v) seen) as [[k w]|] eqn:Efind.
    + destruct (quantize_from (S i) seen rest) as [inds' invs'] eqn:Erec.
      intros [= <- <-] Hnd.
      destruct (IH _ _ _ _ Erec Hnd) as (new & Hinds & Hnew & Hinvs).
      apply list_find_Some in Efind as (Hk & <- & _).
      exists new. repeat split; auto.
      * eapply Forall2_impl; [exact Hinds|].
        intros k' v' [Hle Hv']. split; [lia|].
        replace (k' - i) with (S (k' - S i)) by lia. exact Hv'.
      * constructor; [|exact Hinvs]. apply lookup_app_l_Some. exact Hk.
    + destruct (quantize_from (S i) (seen ++ [v]) rest) as [inds' invs']
        eqn:Erec.
      intros [= <- <-] Hnd.
      apply list_find_None in Efind.
      assert (Hnd' : NoDup (seen ++ [v])).
      { apply NoDup_app. repeat split; [exact Hnd | | apply NoDup_singleton].
        intros x Hx Hv. apply list_elem_of_singleton in Hv. subst x.
        rewrite Forall_forall in Efind. exact (Efind v Hx eq_refl). }
      destruct (IH _ _ _ _ Erec Hnd') as (new & Hinds & Hnew & Hinvs).
      rewrite <- app_assoc in Hnew, Hinvs. simpl in Hnew, Hinvs.
      exists (v :: new). repeat split; auto.
      * constructor.
        -- split; [lia|]. rewrite Nat.sub_diag. reflexivity.
        -- eapply Forall2_impl; [exact Hinds|].
           intros k' v' [Hle Hv']. split; [lia|].
           replace (k' - i) with (S (k' - S i)) by lia. exact Hv'.
      * constructor; [|exact Hinvs]. apply list_lookup_middle. reflexivity.
Qed.

(** On pairwise distinct coordinates the scan keeps every point, in order. *)
Lemma quantize_from_NoDup coords : forall i seen,
  NoDup (seen ++ coords) ->
  quantize_from i seen coords =
    (seq i (length coords), seq (length seen) (length coords)).
Proof.
  induction coords as [|v rest IH]; intros i seen Hnd; simpl; [reflexivity|].
  assert (Efind : list_find (eq v) seen = None).
  { apply list_find_None. apply NoDup_app in Hnd as (_ & Hdis & _).
    rewrite Forall_forall. intros x Hx <-. apply (Hdis v Hx). left. }
  rewrite Efind. rewrite (IH (S i) (seen ++ [v])).
  - rewrite length_app. simpl. rewrite Nat.add_1_r. reflexivity.
  - rewrite <- app_assoc. exact Hnd.
Qed.

(** What [sparse_quantize] returns: it never raises on arrays of one
    length, the representatives have pairwise distinct coordinates, and
    the inverse map has one entry per point, the position of a
    representative with the same coordinate. *)
Lemma sparse_quantize_spec coords feats labels :
  length labels = length coords ->
  exists inds flabels invs reps,
    sparse_quantize coords feats labels = Ok (inds, flabels, invs) /\
    gather coords inds = Ok reps /\
    NoDup reps /\
    Forall2 (fun v j => reps !! j = Some v) coords invs.
Proof.
  intros Hlen. unfold sparse_quantize.
  destruct (quantize_from 0 [] coords) as [inds invs] eqn:Eq.
  destruct (quantize_from_spec coords 0 [] inds invs Eq (NoDup_nil_2))
    as (reps & Hinds & Hnd & Hinvs).
  simpl in Hnd, Hinvs.
  assert (Hreps : gather coords inds = Ok reps).
  { apply gather_Forall2. eapply Forall2_impl; [exact Hinds|].
    intros k v [_ Hk]. rewrite Nat.sub_0_r in Hk. exact Hk. }
  destruct (gather_same_shape coords labels inds reps (eq_sym Hlen) Hreps)
    as [flabels Hfl].
  exists inds, flabels, invs, reps. rewrite Hfl. simpl. auto.
Qed.

Lemma sparse_quantize_Ok coords feats labels inds flabels invs :
  sparse_quantize coords feats labels = Ok (inds, flabels, invs) ->
  exists reps,
    gather coords inds = Ok reps /\
    NoDup reps /\
    Forall2 (fun v j => reps !! j = Some v) coords invs.
Proof.
  unfold sparse_quantize.
  destruct (quantize_from 0 [] coords) as [inds' invs'] eqn:Eq.
  intros H. res_inv H. injection H as -> _ ->.
  destruct (quantize_from_spec coords 0 [] inds invs Eq (NoDup_nil_2))
    as (reps & Hinds & Hnd & Hinvs).
  simpl in Hnd, Hinvs. exists reps. repeat split; auto.
  apply gather_Forall2. eapply Forall2_impl; [exact Hinds|].
  intros k v [_ Hk]. rewrite Nat.sub_0_r in Hk. exact Hk.
Qed.

(** ** process_point_cloud with the modelled helper *)

Lemma select_ne_mask_length {A} (xs : list A) labels ign :
  length labels <= length xs ->
  length (select (ne_mask labels ign) xs) = count_kept labels ign.
Proof.
  unfold count_kept, ne_mask. revert xs.
  induction labels as [|l labels IH]; intros [|x xs]; simpl;
    try lia; auto.
  intros E. apply le_S_n in E. rewrite filter_cons.
  destruct (Z.eqb_spec l ign) as [->|Hne]; simpl.
  - rewrite decide_False by auto. apply IH, E.
  - rewrite decide_True by auto. simpl. f_equal. apply IH, E.
Qed.

(** Inversion of a run of [process_point_cloud] that returns. *)
Lemma process_point_cloud_Ok cloud labels vs ign fd :
  process_point_cloud cloud labels vs ign = Ok fd ->
  exists m,
    (length labels = length cloud \/ labels = []) /\
    min0 (round_div vs <$> cloud) = Ok m /\
    NoDup (C (lidar fd)) /\
    length (F (lidar fd)) = length (C (lidar fd)) /\
    Forall2 (fun p j => C (lidar fd) !! j = Some (vsub (round_div vs p) m))
            (select (ne_mask labels ign) cloud) (F (inverse_map fd)).
Proof.
  intros H. apply process_point_cloud_with_Ok in H
    as (m & inds & fl & invs & pcv & feat & labs & Hlen & Hm & Hq & Hpc
        & Hfeat & Hlabs & ->).
  apply sparse_quantize_Ok in Hq as (reps & Hreps & Hnd & Hinvs).
  rewrite Hreps in Hpc. apply Ok_inj in Hpc. subst pcv. simpl.
  exists m. split; [exact Hlen|]. repeat split; auto.
  - rewrite (gather_length _ _ _ Hfeat), (gather_length _ _ _ Hreps).
    reflexivity.
  - rewrite <- list_fmap_compose, select_fmap in Hinvs.
    apply Forall2_fmap_l in Hinvs. exact Hinvs.
Qed.

(** The four masks of a call whose label array has one label per point,
    or no label at all, select without an exception. *)
Lemma ne_mask_index {A B} (xs : list A) (cloud : list B) labels ign :
  length labels = length cloud \/ labels = [] ->
  length xs = length cloud ->
  mask_index xs (ne_mask labels ign) = Ok (select (ne_mask labels ign) xs).
Proof.
  intros Hshape E. apply mask_index_returns. destruct Hshape as [Hl| ->].
  - left. unfold ne_mask. rewrite length_fmap. congruence.
  - right. reflexivity.
Qed.

(** The masked arrays have one length. *)
Lemma select_ne_mask_same_length {A B} (xs : list A) (ys : list B) labels ign :
  length labels <= length xs -> length labels <= length ys ->
  length (select (ne_mask labels ign) xs)
  = length (select (ne_mask labels ign) ys).
Proof.
  intros Hx Hy. rewrite !select_ne_mask_length by assumption. reflexivity.
Qed.

(** A non-empty input with one label per point, or with no label at all,
    is processed without an exception. *)
Lemma process_point_cloud_returns cloud labels vs ign :
  cloud <> [] -> length labels = length cloud \/ labels = [] ->
  exists fd, process_point_cloud cloud labels vs ign = Ok fd.
Proof.
  intros Hne Hshape. unfold process_point_cloud, process_point_cloud_with.
  destruct (min0_nonempty (round_div vs <$> cloud)) as [m ->].
  { destruct cloud; [congruence | discriminate]. }
  pose proof (labels_shape_le labels cloud Hshape) as Hle.
  cbn [mbind res_bind].
  rewrite (mask_index_same_length labels (ne_mask labels ign))
    by (unfold ne_mask; rewrite length_fmap; reflexivity).
  rewrite !(ne_mask_index _ cloud labels ign Hshape)
    by (rewrite ?length_fmap; reflexivity).
  cbn [mbind res_bind].
  set (pc_ := select (ne_mask labels ign)
                ((fun v => vsub v m) <$> (round_div vs <$> cloud))).
  assert (Hpl : length pc_ = length (select (ne_mask labels ign) labels)).
  { apply select_ne_mask_same_length; rewrite ?length_fmap; auto. }
  assert (Hpc : length pc_ = length (select (ne_mask labels ign) cloud)).
  { apply select_ne_mask_same_length; rewrite ?length_fmap; auto. }
  destruct (sparse_quantize_spec pc_ (select (ne_mask labels ign) cloud)
              (select (ne_mask labels ign) labels))
    as (inds & fl & invs & reps & -> & Hreps & _ & _).
  { symmetry. exact Hpl. }
  cbn [mbind res_bind]. rewrite Hreps.
  destruct (gather_same_shape pc_ (select (ne_mask labels ign) cloud) inds reps)
    as [feat ->]; [exact Hpc | auto |].
  destruct (gather_same_shape pc_ (select (ne_mask labels ign) labels) inds
              reps)
    as [labs ->]; [exact Hpl | auto |].
  cbn [mbind res_bind]. eauto.
Qed.

(** The inverse map of a run: one entry per kept point, each below the
    number of representatives. *)
Lemma inverse_map_shape cloud labels vs ign fd :
  process_point_cloud cloud labels vs ign = Ok fd ->
  length (F (inverse_map fd)) = count_kept labels ign /\
  Forall (fun j => j < length (F (lidar fd))) (F (inverse_map fd)).
Proof.
  intros H. apply process_point_cloud_Ok in H
    as (m & Hlen & _ & _ & HFC & Hinv).
  split.
  - rewrite <- (Forall2_length _ _ _ Hinv).
    apply select_ne_mask_length, labels_shape_le, Hlen.
  - rewrite HFC. clear -Hinv.
    induction Hinv as [|p j ps js Hj _ IH]; constructor; auto.
    eapply lookup_lt_Some. exact Hj.
Qed.

(** C3: the 'inverse_map' field has one entry per input point whose label
    differs from the ignore value, and every entry is an index below the
    number of voxel representatives kept in 'lidar'. *)
Theorem inverse_map_valid cloud labels vs ign fd :
  process_point_cloud cloud labels vs ign = Ok fd ->
  length (F (inverse_map fd)) = count_kept labels ign /\
  Forall (fun j => 0 <= j < length (F (lidar fd))) (F (inverse_map fd)) /\
  length (F (lidar fd)) = length (C (lidar fd)) /\
  NoDup (C (lidar fd)).
Proof.
  intros H. destruct (inverse_map_shape _ _ _ _ _ H) as [Hlen Hrange].
  apply process_point_cloud_Ok in H as (m & _ & _ & Hnd & HFC & _).
  repeat split; auto.
  eapply Forall_impl; [exact Hrange|]. simpl. intros j Hj. lia.
Qed.

Lemma inverse_map_valid_witness :
  length [0; 1; 0; 1] = count_kept sample_labels default_ignore_label /\
  Forall (fun j => 0 <= j < 2) [0; 1; 0; 1].
Proof.
  destruct (inverse_map_valid sample_cloud sample_labels default_voxel_size
              default_ignore_label sample_feed_dict) as (Hlen & Hrange & _).
  - vm_compute. reflexivity.
  - split; [exact Hlen | exact Hrange].
Defined.

(** C4: on the collated one-sample batch, indexing per-voxel predictions by
    the inverse map gives one prediction per non-ignored input point: the
    prediction of the representative whose voxel coordinate is the
    point's. *)
Theorem predictions_scatter cloud labels vs ign fd predictions :
  process_point_cloud cloud labels vs ign = Ok fd ->
  length predictions = length (F (lidar fd)) ->
  exists out m,
    map_predictions predictions (sparse_collate_fn [fd]) = Ok out /\
    length out = count_kept labels ign /\
    min0 (round_div vs <$> cloud) = Ok m /\
    forall j p,
      select (ne_mask labels ign) cloud !! j = Some p ->
      exists r y,
        F (inverse_map (sparse_collate_fn [fd])) !! j = Some r /\
        C (lidar (sparse_collate_fn [fd])) !! r
          = Some (vsub (round_div vs p) m, 0) /\
        predictions !! r = Some y /\
        out !! j = Some y.
Proof.
  intros H Hpred.
  destruct (inverse_map_shape _ _ _ _ _ H) as [Hcount Hrange].
  apply process_point_cloud_Ok in H as (m & Hlen & Hm & _ & HFC & Hinv).
  unfold map_predictions. simpl. rewrite !app_nil_r.
  destruct (gather_in_range predictions (F (inverse_map fd))) as [out Hout].
  { rewrite Hpred. exact Hrange. }
  exists out, m. repeat split; auto.
  - rewrite (gather_length _ _ _ Hout). exact Hcount.
  - intros j p Hp.
    destruct (Forall2_lookup_l _ _ _ _ _ Hinv Hp) as (r & Hr & Hrep).
    apply gather_Forall2 in Hout.
    destruct (Forall2_lookup_l _ _ _ _ _ Hout Hr) as (y & Hy & Hry).
    exists r, y. repeat split; auto.
    unfold with_batch_index. rewrite list_lookup_fmap, Hrep. reflexivity.
Qed.

Lemma predictions_scatter_witness :
  exists out,
    map_predictions [7; 9]%Z (sparse_collate_fn [sample_feed_dict]) = Ok out /\
    length out = 4.
Proof.
  destruct (predictions_scatter sample_cloud sample_labels default_voxel_size
              default_ignore_label sample_feed_dict [7; 9]%Z)
    as (out & m & Hout & Hlen & _).
  - vm_compute. reflexivity.
  - reflexivity.
  - exists out. split; [exact Hout | exact Hlen].
Defined.

(** ** The order of the origin shift and the ignore mask *)

Section ShiftOrder.

Variable quantize : quantizer.

(** C1, as amended: the per-axis minimum of the origin shift is taken
    over the rounded coordinates of all the input points, the ignored
    ones included, and the mask is applied to the shifted array; the
    result is that of the filter-then-shift order whenever the minimum
    over the non-ignored points is the same. *)
Theorem shift_precedes_filter cloud labels vs ign fd :
  process_point_cloud_with quantize cloud labels vs ign = Ok fd ->
  exists m inds,
    min0 (round_div vs <$> cloud) = Ok m /\
    gather (select (ne_mask labels ign)
                   ((fun p => vsub (round_div vs p) m) <$> cloud))
           inds = Ok (C (lidar fd)) /\
    (min0 (round_div vs <$> select (ne_mask labels ign) cloud) = Ok m ->
     filter_then_shift_with quantize cloud labels vs ign = Ok fd).
Proof.
  intros H. apply process_point_cloud_with_Ok in H
    as (m & inds & fl & invs & pcv & feat & labs & Hlen & Hm & Hq
        & Hpc & Hfeat & Hlabs & ->).
  exists m, inds. simpl. repeat split; auto.
  - rewrite <- list_fmap_compose in Hpc. exact Hpc.
  - intros Hm'. unfold filter_then_shift_with.
    rewrite (mask_index_same_length labels (ne_mask labels ign))
      by (unfold ne_mask; rewrite length_fmap; reflexivity).
    rewrite !(ne_mask_index _ cloud labels ign Hlen)
      by (rewrite ?length_fmap; reflexivity).
    cbn [mbind res_bind]. rewrite Hm'. cbn [mbind res_bind].
    rewrite <- !select_fmap. rewrite Hq. cbn [mbind res_bind].
    rewrite Hpc, Hfeat, Hlabs. reflexivity.
Qed.

End ShiftOrder.

(** C1, counterexample: with the unlabeled point at the origin, the code
    leaves the kept voxels at (1,1,1) and (2,1,1), where the
    filter-then-shift order puts them at (0,0,0) and (1,0,0). *)
Lemma shift_order_counterexample :
  exists fd fd',
    process_point_cloud sample_cloud sample_labels
      default_voxel_size default_ignore_label = Ok fd /\
    filter_then_shift sample_cloud sample_labels
      default_voxel_size default_ignore_label = Ok fd' /\
    C (lidar fd) = [vox 1 1 1; vox 2 1 1] /\
    C (lidar fd') = [vox 0 0 0; vox 1 0 0] /\
    C (lidar fd) <> C (lidar fd').
Proof.
  eexists. eexists. split; [vm_compute; reflexivity|].
  split; [vm_compute; reflexivity|]. simpl.
  repeat split; discriminate.
Qed.

Lemma shift_precedes_filter_witness :
  exists m inds,
    min0 (round_div default_voxel_size <$> sample_cloud) = Ok m /\
    gather (select (ne_mask sample_labels default_ignore_label)
                   ((fun p => vsub (round_div default_voxel_size p) m)
                      <$> sample_cloud))
           inds = Ok [vox 1 1 1; vox 2 1 1].
Proof.
  destruct (shift_precedes_filter sparse_quantize sample_cloud sample_labels
              default_voxel_size default_ignore_label sample_feed_dict)
    as (m & inds & Hm & Hg & _).
  - vm_compute. reflexivity.
  - exists m, inds. split; assumption.
Defined.

(** ** Every label ignored *)

Lemma ne_mask_all_ignored labels ign :
  Forall (fun l => l = ign) labels ->
  Forall (fun b => b = false) (ne_mask labels ign).
Proof.
  intros H. unfold ne_mask. apply Forall_fmap.
  eapply Forall_impl; [exact H|]. intros l ->. simpl.
  rewrite Z.eqb_refl. reflexivity.
Qed.

Lemma ne_mask_none_ignored labels ign :
  Forall (fun l => l <> ign) labels ->
  Forall (fun b => b = true) (ne_mask labels ign).
Proof.
  intros H. unfold ne_mask. apply Forall_fmap.
  eapply Forall_impl; [exact H|]. intros l Hl. simpl.
  apply negb_true_iff, Z.eqb_neq, Hl.
Qed.

(** The helpers of the model meet the description of sparse_quantize. *)
Lemma sparse_quantize_quantizes : quantizes sparse_quantize.
Proof. intros coords feats labels inds fl invs. apply sparse_quantize_Ok. Qed.

Lemma sparse_quantize_nonempty_quantizes : quantizes sparse_quantize_nonempty.
Proof.
  intros [|v coords] feats labels inds fl invs; simpl; [discriminate|].
  apply sparse_quantize_Ok.
Qed.

Lemma sparse_quantize_reversed_quantizes : quantizes sparse_quantize_reversed.
Proof.
  intros coords feats labels inds fl invs. unfold sparse_quantize_reversed.
  destruct (quantize_from 0 [] coords) as [inds' invs'] eqn:Eq.
  intros H. res_inv H. injection H as <- _ <-.
  destruct (quantize_from_spec coords 0 [] inds' invs' Eq (NoDup_nil_2))
    as (reps & Hinds & Hnd & Hinvs).
  simpl in Hnd, Hinvs. exists (reverse reps).
  pose proof (Forall2_length _ _ _ Hinds) as Hlen.
  repeat split.
  - apply gather_Forall2, Forall2_reverse.
    eapply Forall2_impl; [exact Hinds|].
    intros k v [_ Hk]. rewrite Nat.sub_0_r in Hk. exact Hk.
  - rewrite reverse_Permutation. exact Hnd.
  - apply Forall2_fmap_r. eapply Forall2_impl; [exact Hinvs|].
    intros v j Hj. simpl.
    pose proof (lookup_lt_Some _ _ _ Hj) as Hlt.
    rewrite reverse_lookup by lia.
    replace (length reps - S (length inds' - S j)) with j by lia.
    exact Hj.
Qed.

(** What a helper that meets the description returns on arrays with no
    row: no representative and an empty inverse map. *)
Lemma quantizes_no_row quantize feats labels inds flabels invs :
  quantizes quantize ->
  quantize [] feats labels = Ok (inds, flabels, invs) ->
  inds = [] /\ invs = [].
Proof.
  intros Hq H. apply Hq in H as (reps & Hreps & _ & Hinvs).
  split.
  - destruct inds as [|i inds]; [reflexivity | discriminate].
  - inversion Hinvs. reflexivity.
Qed.

Section AllIgnored.

Variable quantize : quantizer.
Hypothesis quantize_spec : quantizes quantize.


End AllIgnored.



(** ** Re-quantizing a deduplicated point set *)

Lemma sparse_quantize_NoDup coords feats labels :
  NoDup coords -> length labels = length coords ->
  sparse_quantize coords feats labels
  = Ok (seq 0 (length coords), labels, seq 0 (length coords)).
Proof.
  intros Hnd Hlen. unfold sparse_quantize.
  rewrite (quantize_from_NoDup coords 0 []) by exact Hnd. simpl.
  rewrite <- Hlen. rewrite gather_all. reflexivity.
Qed.

(** On pairwise distinct coordinates a result that meets the description
    of sparse_quantize lists every position once, and the inverse map
    sends every position to the place where it is listed. *)
Lemma dedup_positions {A} (coords reps : list A) inds invs :
  NoDup coords ->
  gather coords inds = Ok reps ->
  NoDup reps ->
  Forall2 (fun v j => reps !! j = Some v) coords invs ->
  inds ≡ₚ seq 0 (length coords) /\
  invs ≡ₚ seq 0 (length coords) /\
  Forall2 (fun k j => inds !! j = Some k) (seq 0 (length coords)) invs.
Proof.
  intros Hnd Hg Hreps Hinvs. apply gather_Forall2 in Hg.
  assert (Hpos : forall k j, invs !! k = Some j -> inds !! j = Some k).
  { intros k j Hj.
    destruct (Forall2_lookup_r _ _ _ _ _ Hinvs Hj) as (v & Hv & Hrj).
    destruct (Forall2_lookup_r _ _ _ _ _ Hg Hrj) as (i & Hi & Hci).
    rewrite (NoDup_lookup _ _ _ _ Hnd Hv Hci). exact Hi. }
  assert (Hperm : inds ≡ₚ seq 0 (length coords)); [|split; [exact Hperm|split]].
  - apply NoDup_Permutation; [|apply NoDup_seq|].
    + apply NoDup_alt. intros j1 j2 i H1 H2.
      destruct (Forall2_lookup_l _ _ _ _ _ Hg H1) as (v1 & Hr1 & Hc1).
      destruct (Forall2_lookup_l _ _ _ _ _ Hg H2) as (v2 & Hr2 & Hc2).
      assert (v1 = v2) by congruence. subst v2.
      exact (NoDup_lookup _ _ _ _ Hreps Hr1 Hr2).
    + intros i. rewrite elem_of_seq. split.
      * intros Hi. apply list_elem_of_lookup in Hi as [j Hj].
        destruct (Forall2_lookup_l _ _ _ _ _ Hg Hj) as (v & _ & Hc).
        apply lookup_lt_Some in Hc. lia.
      * intros [_ Hi]. simpl in Hi.
        destruct (lookup_lt_is_Some_2 coords i Hi) as [v Hv].
        destruct (Forall2_lookup_l _ _ _ _ _ Hinvs Hv) as (j & Hj & _).
        apply list_elem_of_lookup. exists j. apply Hpos, Hj.
  - assert (Hni : NoDup inds) by (rewrite Hperm; apply NoDup_seq).
    pose proof (Permutation_length Hperm) as Hli. rewrite length_seq in Hli.
    pose proof (Forall2_length _ _ _ Hinvs) as Hlv.
    apply NoDup_Permutation; [|apply NoDup_seq|].
    + apply NoDup_alt. intros k1 k2 j H1 H2.
      apply Hpos in H1, H2. congruence.
    + intros j. rewrite elem_of_seq. split.
      * intros Hj. apply list_elem_of_lookup in Hj as [k Hk].
        apply Hpos, lookup_lt_Some in Hk. lia.
      * intros [_ Hj]. simpl in Hj.
        destruct (lookup_lt_is_Some_2 inds j) as [k Hk]; [lia|].
        assert (Hkc : k < length coords).
        { assert (Hin : k ∈ inds) by (eapply list_elem_of_lookup_2; eauto).
          rewrite Hperm in Hin. apply elem_of_seq in Hin. lia. }
        destruct (lookup_lt_is_Some_2 invs k) as [j' Hj']; [lia|].
        pose proof (Hpos _ _ Hj') as Hk'.
        rewrite (NoDup_lookup _ _ _ _ Hni Hk Hk').
        eapply list_elem_of_lookup_2; eauto.
  - apply Forall2_same_length_lookup. split.
    + rewrite length_seq. eapply Forall2_length. exact Hinvs.
    + intros k k' j Hk Hj. apply lookup_seq in Hk as [-> _]. simpl.
      apply Hpos, Hj.
Qed.

(** Indexing by a list that holds every position once gives the rows in
    another order. *)
Lemma gather_Permutation {A} (xs : list A) inds r :
  inds ≡ₚ seq 0 (length xs) -> gather xs inds = Ok r -> r ≡ₚ xs.
Proof.
  intros Hperm Hg. apply gather_Forall2 in Hg.
  assert (Hr : omap (fun i => xs !! i) inds = r).
  { clear Hperm. induction Hg as [|i x inds r Hx _ IH]; [reflexivity|].
    change (omap ?f (?i :: ?l)) with
      (match f i with Some y => y :: omap f l | None => omap f l end).
    cbv beta. rewrite Hx, IH. reflexivity. }
  assert (Hxs : forall pre, omap (fun i => (pre ++ xs) !! i)
                              (seq (length pre) (length xs)) = xs).
  { clear. induction xs as [|x xs IH]; intros pre; [reflexivity|].
    specialize (IH (pre ++ [x])). rewrite length_app in IH.
    rewrite Nat.add_1_r, <- app_assoc in IH. simpl in IH.
    change (seq (length pre) (length (x :: xs)))
      with (length pre :: seq (S (length pre)) (length xs)).
    change (omap ?f (?i :: ?l)) with
      (match f i with Some y => y :: omap f l | None => omap f l end).
    cbv beta. rewrite list_lookup_middle by reflexivity. rewrite IH.
    reflexivity. }
  specialize (Hxs []). simpl in Hxs.
  rewrite <- Hr, Hperm, Hxs. reflexivity.
Qed.

(** The origin shift keeps distinct rows of integers distinct. *)
Lemma vsub_NoDup m a :
  vfinite m -> Forall vfinite a -> NoDup a ->
  NoDup ((fun v => vsub v m) <$> a).
Proof.
  intros (mx & my & mz & ->) Hfin Hnd.
  apply NoDup_fmap_2_strong; [|exact Hnd].
  intros v w Hv Hw.
  rewrite Forall_forall in Hfin.
  destruct (Hfin v Hv) as (x & y & z & ->).
  destruct (Hfin w Hw) as (x' & y' & z' & ->).
  unfold vox. simpl. intros [= Hx Hy Hz]. repeat f_equal; lia.
Qed.

Lemma min0_finite a m : Forall vfinite a -> min0 a = Ok m -> vfinite m.
Proof.
  intros Hfin Hm. pose proof (min0_le a m Hfin Hm) as Hle.
  destruct a as [|v a]; [discriminate|].
  apply Forall_cons in Hle as [Hv _]. apply vle_finite in Hv. tauto.
Qed.

Section Requantize.

Variable quantize : quantizer.
Hypothesis quantize_spec : quantizes quantize.


End Requantize.



(** The voxels kept by one run are pairwise distinct, so quantizing them
    again keeps each of them, in place. *)
Lemma requantize_output cloud labels vs ign fd :
  process_point_cloud cloud labels vs ign = Ok fd ->
  sparse_quantize (C (lidar fd)) (F (lidar fd)) (F (targets fd))
  = Ok (seq 0 (length (C (lidar fd))), F (targets fd),
        seq 0 (length (C (lidar fd)))).
Proof.
  intros H.
  pose proof (process_point_cloud_Ok _ _ _ _ _ H) as (m & _ & _ & Hnd & _).
  apply sparse_quantize_NoDup; [exact Hnd|].
  apply process_point_cloud_with_Ok in H
    as (m' & inds & fl & invs & pcv & feat & labs & _ & _ & _ & Hpc & _
        & Hlabs & ->).
  simpl. rewrite (gather_length _ _ _ Hpc), (gather_length _ _ _ Hlabs).
  reflexivity.
Qed.

(** ** Collation *)

Lemma collate_features {A B} (ts : list (SparseTensor A B)) k :
  fst <$> concat (imap (fun b t => with_batch_index (k + b) (C t)) ts)
  = concat (C <$> ts).
Proof.
  revert k. induction ts as [|t ts IH]; intros k; [reflexivity|].
  rewrite imap_cons, fmap_cons. simpl concat. rewrite fmap_app. f_equal.
  - unfold with_batch_index. rewrite <- list_fmap_compose.
    apply list_fmap_id.
  - rewrite <- (IH (S k)). do 2 f_equal. apply imap_ext.
    intros i x _. simpl. rewrite Nat.add_succ_r. reflexivity.
Qed.

(** The batch-index column: sample number [b] contributes its own number,
    once per row. *)
Lemma collate_batch_column {A B} (ts : list (SparseTensor A B)) k :
  snd <$> concat (imap (fun b t => with_batch_index (k + b) (C t)) ts)
  = concat (imap (fun b t => replicate (length (C t)) (k + b)) ts).
Proof.
  revert k. induction ts as [|t ts IH]; intros k; [reflexivity|].
  rewrite !imap_cons. simpl concat. rewrite fmap_app. f_equal.
  - unfold with_batch_index. rewrite <- list_fmap_compose.
    generalize (C t). intros l. induction l as [|x l IHl]; simpl;
      [reflexivity | f_equal; exact IHl].
  - rewrite (imap_ext _ (fun b t => with_batch_index (S k + b) (C t)))
      by (intros i x _; simpl; rewrite Nat.add_succ_r; reflexivity).
    rewrite IH. f_equal. apply imap_ext.
    intros i x _. simpl. rewrite Nat.add_succ_r. reflexivity.
Qed.

Lemma remove_dups_replicate_app (k n : nat) (l : list nat) :
  0 < n -> k ∉ l -> remove_dups (replicate n k ++ l) = k :: remove_dups l.
Proof.
  intros Hn Hk. induction n as [|n IH]; [lia|].
  destruct n as [|n].
  - simpl. case_decide as Hd; [|reflexivity].
    exfalso. exact (Hk Hd).
  - change (replicate (S (S n)) k ++ l)
      with (k :: (replicate (S n) k ++ l)).
    cbn [remove_dups]. case_decide as Hd; [apply IH; lia|].
    exfalso. apply Hd. simpl. left.
Qed.

Lemma batch_values_bounded {A B} (ts : list (SparseTensor A B)) k x :
  x ∈ concat (imap (fun b t => replicate (length (C t)) (k + b)) ts) ->
  k <= x < k + length ts.
Proof.
  revert k. induction ts as [|t ts IH]; intros k; simpl.
  - intros H. inversion H.
  - rewrite elem_of_app. intros [H|H].
    + apply elem_of_replicate in H as [-> _]. lia.
    + rewrite (imap_ext _ (fun b t => replicate (length (C t)) (S k + b)))
        in H by (intros i y _; simpl; rewrite Nat.add_succ_r; reflexivity).
      apply IH in H. lia.
Qed.

Lemma batch_values_distinct {A B} (ts : list (SparseTensor A B)) k :
  Forall (fun t => C t <> []) ts ->
  remove_dups (concat (imap (fun b t => replicate (length (C t)) (k + b)) ts))
  = seq k (length ts).
Proof.
  intros H. revert k. induction H as [|t ts Ht _ IH]; intros k;
    [reflexivity|].
  rewrite imap_cons. simpl concat. rewrite Nat.add_0_r.
  rewrite (imap_ext _ (fun b t => replicate (length (C t)) (S k + b)))
    by (intros i y _; simpl; rewrite Nat.add_succ_r; reflexivity).
  rewrite remove_dups_replicate_app.
  - rewrite IH. reflexivity.
  - destruct (C t); [congruence | simpl; lia].
  - intros Hin. apply batch_values_bounded in Hin. lia.
Qed.

(** Collation of one field. *)
Lemma sparse_collate_tensors_spec {A B} (ts : list (SparseTensor A B)) :
  concatenated ts (sparse_collate_tensors ts) /\
  batch_column (sparse_collate_tensors ts)
    = concat (imap (fun b t => replicate (length (C t)) b) ts) /\
  (Forall (fun t => C t <> []) ts ->
   one_index_per_sample ts (sparse_collate_tensors ts)).
Proof.
  unfold concatenated, one_index_per_sample, batch_column. simpl.
  pose proof (collate_features ts 0) as HF.
  pose proof (collate_batch_column ts 0) as HB.
  pose proof (batch_values_distinct ts 0) as HD.
  simpl in HF, HB, HD. rewrite HB. auto.
Qed.

(** C6, as amended: collation concatenates every named field across the
    samples and appends to the coordinates a batch-index column in which
    the rows of sample [b] carry [b]; the column takes exactly one value
    per sample when no sample is empty in that field. *)
Theorem collate_feed_dicts {X V} (lis : list (feed_dict X V)) :
  collated (pc <$> lis) (pc (sparse_collate_fn lis)) /\
  collated (lidar <$> lis) (lidar (sparse_collate_fn lis)) /\
  collated (targets <$> lis) (targets (sparse_collate_fn lis)) /\
  collated (targets_mapped <$> lis) (targets_mapped (sparse_collate_fn lis)) /\
  collated (inverse_map <$> lis) (inverse_map (sparse_collate_fn lis)).
Proof.
  unfold collated, sparse_collate_fn. simpl.
  repeat split; try apply sparse_collate_tensors_spec.
Qed.

(** C6, counterexample: a batch of two samples, the second with every label
    ignored.  Both calls of [process_point_cloud] return, and the
    batch-index column of the collated 'lidar' takes one value, not two. *)
Lemma collate_empty_sample_counterexample :
  exists fd1 fd2,
    process_point_cloud sample_cloud sample_labels default_voxel_size 19
      = Ok fd1 /\
    process_point_cloud [at_voxel 0 0 0] [19%Z] default_voxel_size 19
      = Ok fd2 /\
    remove_dups (batch_column (lidar (sparse_collate_fn [fd1; fd2]))) = [0] /\
    length (remove_dups (batch_column (lidar (sparse_collate_fn [fd1; fd2]))))
      <> length [fd1; fd2].
Proof.
  eexists. eexists. split; [vm_compute; reflexivity|].
  split; [vm_compute; reflexivity|]. simpl.
  split; [reflexivity | discriminate].
Qed.

Lemma collate_feed_dicts_witness :
  exists fd1 fd2,
    process_point_cloud sample_cloud sample_labels default_voxel_size 19
      = Ok fd1 /\
    process_point_cloud (tail sample_cloud) (tail sample_labels)
      default_voxel_size 19 = Ok fd2 /\
    remove_dups (batch_column (lidar (sparse_collate_fn [fd1; fd2])))
      = [0; 1].
Proof.
  eexists. eexists. split; [vm_compute; reflexivity|].
  split; [vm_compute; reflexivity|].
  match goal with
  | |- remove_dups (batch_column (lidar (sparse_collate_fn ?l))) = _ =>
      destruct (collate_feed_dicts l) as (_ & (_ & _ & Hidx) & _)
  end.
  apply Hidx. repeat constructor; discriminate.
Defined.

(** The samples of [generate_random_batch] are never empty, so its batch
    has one batch index per sample in every field. *)
Lemma process_point_cloud_nonempty cloud labels vs ign fd :
  process_point_cloud cloud labels vs ign = Ok fd ->
  cloud <> [] -> length labels = length cloud ->
  Forall (fun l => l <> ign) labels ->
  C (pc fd) <> [] /\ C (lidar fd) <> [] /\ C (targets fd) <> [] /\
  C (targets_mapped fd) <> [] /\ C (inverse_map fd) <> [].
Proof.
  intros H Hne Hlen Hkeep.
  pose proof (process_point_cloud_Ok _ _ _ _ _ H)
    as (m & _ & _ & _ & _ & Hinv).
  apply process_point_cloud_with_Ok in H
    as (m' & inds & fl & invs & pcv & feat & labs & _ & _ & _ & _ & _ & _
        & ->).
  simpl in *.
  pose proof (ne_mask_none_ignored labels ign Hkeep) as Hmask.
  assert (Hml : length (ne_mask labels ign) = length cloud)
    by (unfold ne_mask; rewrite length_fmap; exact Hlen).
  rewrite select_all_true in Hinv by auto.
  rewrite select_all_true by (rewrite ?length_fmap; auto).
  assert (Hxyz : xyz_of <$> cloud <> [])
    by (destruct cloud; [congruence | discriminate]).
  assert (Hpcv : pcv <> []).
  { destruct cloud as [|p cloud]; [congruence|].
    inversion Hinv as [|? j ? ? Hj]; subst. intros ->. discriminate. }
  auto.
Qed.

Lemma generate_random_batch_indices num_classes draws :
  (num_classes <= default_ignore_label)%Z ->
  Forall (random_draw num_classes) draws ->
  exists lis,
    process_samples draws = Ok lis /\
    length lis = length draws /\
    generate_random_batch draws = Ok (sparse_collate_fn lis) /\
    one_index_per_sample (lidar <$> lis) (lidar (sparse_collate_fn lis)) /\
    one_index_per_sample (pc <$> lis) (pc (sparse_collate_fn lis)).
Proof.
  intros Hnc Hdraws.
  assert (Hlis : exists lis,
    process_samples draws = Ok lis /\ length lis = length draws /\
    Forall (fun fd => C (pc fd) <> [] /\ C (lidar fd) <> []) lis).
  { induction Hdraws as [|[cloud labels] draws (Hne & Hlen & Hlab) _ IH].
    - exists []. repeat split; constructor.
    - destruct IH as (lis & Hlis & Hll & Hall). simpl in Hne, Hlen, Hlab.
      destruct (process_point_cloud_returns cloud labels default_voxel_size
                  default_ignore_label Hne (or_introl Hlen)) as [fd Hfd].
      exists (fd :: lis). simpl. rewrite Hfd. cbn [mbind res_bind].
      rewrite Hlis. cbn [mbind res_bind]. repeat split; [congruence|].
      constructor; [|exact Hall].
      assert (Hkeep : Forall (fun l => l <> default_ignore_label) labels)
        by (eapply Forall_impl; [exact Hlab | simpl; intros; lia]).
      destruct (process_point_cloud_nonempty _ _ _ _ _ Hfd Hne Hlen Hkeep)
        as (H1 & H2 & _). auto. }
  destruct Hlis as (lis & Hlis & Hll & Hall).
  exists lis. unfold generate_random_batch. rewrite Hlis.
  repeat split; auto.
  - apply sparse_collate_tensors_spec. apply Forall_fmap.
    eapply Forall_impl; [exact Hall|]. simpl. intros fd [_ H]. exact H.
  - apply sparse_collate_tensors_spec. apply Forall_fmap.
    eapply Forall_impl; [exact Hall|]. simpl. intros fd [H _]. exact H.
Qed.

(** ** The label file *)

Lemma low16_mod v : low16 v = (v mod 2 ^ 16)%Z.
Proof.
  unfold low16. change 0xFFFF%Z with (Z.ones 16).
  apply Z.land_ones. lia.
Qed.

Lemma low16_bits v w :
  (forall i, (0 <= i < 16)%Z -> Z.testbit v i = Z.testbit w i) ->
  low16 v = low16 w.
Proof.
  intros Hbits. unfold low16. change 0xFFFF%Z with (Z.ones 16).
  apply Z.bits_inj'. intros i Hi. rewrite !Z.land_spec.
  destruct (Z.lt_ge_cases i 16) as [Hlt|Hge].
  - rewrite (Hbits i) by lia. reflexivity.
  - rewrite Z.ones_spec_high by lia. rewrite !andb_false_r. reflexivity.
Qed.

(** C8: the label looked up in the label map is the raw value masked to
    its low 16 bits: it lies in [0, 2^16), it is the raw value modulo
    2^16, and two raw values with the same low 16 bits load the same
    label. *)
Theorem label_low16_significant (label_map : list Z) (v : Z) :
  load_label label_map v
    = match label_map !! Z.to_nat (Z.land v 0xFFFF) with
      | Some l => Ok l
      | None => Raise IndexError
      end /\
  low16 v = (v mod 2 ^ 16)%Z /\
  (0 <= low16 v < 2 ^ 16)%Z /\
  (forall w, (forall i, (0 <= i < 16)%Z -> Z.testbit v i = Z.testbit w i) ->
             load_label label_map w = load_label label_map v).
Proof.
  split; [reflexivity|]. split; [apply low16_mod|]. split.
  - rewrite low16_mod. apply Z.mod_pos_bound. lia.
  - intros w Hbits. unfold load_label.
    rewrite (low16_bits v w Hbits). reflexivity.
Qed.

Lemma label_low16_significant_witness :
  load_label [10; 11; 12]%Z 0x10002 = Ok 12%Z /\
  load_label [10; 11; 12]%Z (-65534) = load_label [10; 11; 12]%Z 0x10002.
Proof.
  destruct (label_low16_significant [10; 11; 12]%Z 0x10002)
    as (Hload & _ & _ & Hsame).
  split; [rewrite Hload; reflexivity|].
  apply Hsame. intros i Hi.
  assert (Hcases : (i = 0 \/ i = 1 \/ i = 2 \/ i = 3 \/ i = 4 \/ i = 5 \/
                    i = 6 \/ i = 7 \/ i = 8 \/ i = 9 \/ i = 10 \/ i = 11 \/
                    i = 12 \/ i = 13 \/ i = 14 \/ i = 15)%Z) by lia.
  repeat destruct Hcases as [->|Hcases]; try reflexivity.
  subst i. reflexivity.
Defined.

(** ** The store: what a call writes *)

Lemma keeps_refl n (h : heap) : n <= length h -> keeps n h h.
Proof. intros Hn. split; auto. Qed.

Lemma keeps_trans n (h h1 h2 : heap) :
  keeps n h h1 -> keeps n h1 h2 -> keeps n h h2.
Proof.
  intros [_ H1] [Hn H2]. split; [exact Hn|].
  intros r Hr. rewrite (H2 r Hr). apply H1, Hr.
Qed.

Lemma keeps_app n (h ext : heap) : n <= length h -> keeps n h (h ++ ext).
Proof.
  intros Hn. split; [rewrite length_app; lia|].
  intros r Hr. apply lookup_app_l. lia.
Qed.

Lemma keeps_insert n (h : heap) r a :
  n <= length h -> n <= r -> keeps n h (<[r:=a]> h).
Proof.
  intros Hn Hr. split; [rewrite length_insert; exact Hn|].
  intros r' Hr'. apply list_lookup_insert_ne. lia.
Qed.

Lemma frames_ret {A} n (a : A) (Q : A -> Prop) :
  Q a -> frames n (mret a) Q.
Proof. intros Ha h Hn. split; [apply keeps_refl, Hn | exact Ha]. Qed.

Lemma frames_bind {A B} n (m : M A) (f : A -> M B) Q R :
  frames n m Q -> (forall a, Q a -> frames n (f a) R) ->
  frames n (m ≫= f) R.
Proof.
  intros Hm Hf h Hn. unfold mbind, M_bind.
  destruct (Hm h Hn) as [Hk HQ].
  destruct (m h) as [[a|e] h1]; simpl in Hk, HQ.
  - destruct (Hf a HQ h1 (proj1 Hk)) as [Hk' HR].
    split; [eapply keeps_trans; eassumption | exact HR].
  - split; [exact Hk | exact I].
Qed.

Lemma frames_weaken {A} n (m : M A) (Q Q' : A -> Prop) :
  frames n m Q -> (forall a, Q a -> Q' a) -> frames n m Q'.
Proof.
  intros Hm HQ h Hn. destruct (Hm h Hn) as [Hk Ha]. split; [exact Hk|].
  destruct (m h).1; auto.
Qed.

Lemma frames_lift {A} n (r : res A) : frames n (lift r) (fun _ => True).
Proof.
  intros h Hn. split; [apply keeps_refl, Hn|]. simpl. destruct r; exact I.
Qed.

Lemma frames_load n r : frames n (load r) (fun _ => True).
Proof.
  intros h Hn. unfold load.
  destruct (h !! r); (split; [apply keeps_refl, Hn | exact I]).
Qed.

Lemma frames_alloc n a : frames n (alloc a) (fun r => n <= r).
Proof. intros h Hn. split; [apply keeps_app, Hn | exact Hn]. Qed.

Lemma frames_store n r a : n <= r -> frames n (store r a) (fun _ => True).
Proof.
  intros Hr h Hn. unfold store. destruct (h !! r); simpl.
  - split; [apply keeps_insert; assumption | exact I].
  - split; [apply keeps_refl, Hn | exact I].
Qed.

(** Chain the frame of the first step with that of the rest. *)
Tactic Notation "frames_step" uconstr(lem) :=
  eapply frames_bind; [apply lem | cbv beta; intros ? ?].

(** Writing a column back into itself stores the rows that were there. *)
Lemma set_column3_self rows :
  set_column3 rows (intensity <$> rows) = Ok rows.
Proof.
  unfold set_column3. rewrite length_fmap, Nat.eqb_refl. f_equal.
  induction rows as [|[x y z i] rows IH]; simpl; [reflexivity|].
  f_equal. exact IH.
Qed.

(** [a[:, 3] = a[:, 3]] leaves the store as it was. *)
Lemma assign_column3_self c (h : heap) : (assign_column3 c c h).2 = h.
Proof.
  unfold assign_column3, mbind, M_bind, load, lift, store.
  destruct (h !! c) as [arr|] eqn:E; [|reflexivity].
  destruct arr; simpl; rewrite ?E; simpl; try reflexivity.
  rewrite set_column3_self. simpl. apply list_insert_id, E.
Qed.

Lemma frames_assign_column3_self n c :
  frames n (assign_column3 c c) (fun _ => True).
Proof.
  intros h Hn. rewrite assign_column3_self.
  split; [apply keeps_refl, Hn|]. destruct (assign_column3 c c h).1; exact I.
Qed.

Lemma frames_round_divide n a vs :
  frames n (round_divide a vs) (fun r => n <= r).
Proof.
  unfold round_divide. frames_step frames_load. frames_step frames_lift.
  apply frames_alloc.
Qed.

Lemma frames_isub_min0 n a : n <= a -> frames n (isub_min0 a) (fun _ => True).
Proof.
  intros Ha. unfold isub_min0. frames_step frames_load.
  frames_step frames_lift. frames_step frames_lift.
  apply frames_store, Ha.
Qed.

Lemma frames_ne_mask_of n l ign :
  frames n (ne_mask_of l ign) (fun _ => True).
Proof.
  unfold ne_mask_of. frames_step frames_load. frames_step frames_lift.
  apply frames_ret. exact I.
Qed.

Lemma frames_getitem_mask n a mask :
  frames n (getitem_mask a mask) (fun r => n <= r).
Proof.
  unfold getitem_mask. frames_step frames_load. frames_step frames_lift.
  apply frames_alloc.
Qed.

Lemma frames_getitem_mask_xyz n a mask :
  frames n (getitem_mask_xyz a mask) (fun r => n <= r).
Proof.
  unfold getitem_mask_xyz. frames_step frames_load.
  frames_step frames_lift. frames_step frames_lift. apply frames_alloc.
Qed.

Lemma frames_getitem_index n a i :
  frames n (getitem_index a i) (fun r => n <= r).
Proof.
  unfold getitem_index. frames_step frames_load. frames_step frames_load.
  frames_step frames_lift. frames_step frames_lift. apply frames_alloc.
Qed.

Section StoreFrame.

Variable quantize_st : quantizer_st.
Hypothesis quantize_frame : writes_only_arguments quantize_st.

Lemma frames_quantize_st n a b c :
  n <= a -> n <= b -> n <= c ->
  frames n (quantize_st a b c) (fun _ => True).
Proof.
  intros Ha Hb Hc h Hn.
  assert (Hsame : forall r, r < n -> (quantize_st a b c h).2 !! r = h !! r)
    by (intros r Hr; apply quantize_frame; lia).
  split; [split; [|exact Hsame] | destruct (quantize_st a b c h).1; exact I].
  destruct n as [|n]; [lia|].
  assert (Hlast : is_Some ((quantize_st a b c h).2 !! n)).
  { rewrite Hsame by lia. apply lookup_lt_is_Some_2. lia. }
  apply lookup_lt_is_Some_1 in Hlast. lia.
Qed.

Lemma frames_process_point_cloud_st n c l vs ign :
  frames n (process_point_cloud_st quantize_st c l vs ign) (fun _ => True).
Proof.
  unfold process_point_cloud_st.
  frames_step frames_assign_column3_self.
  frames_step frames_round_divide.
  eapply frames_bind; [apply frames_isub_min0; assumption|].
  cbv beta; intros _ _.
  frames_step frames_ne_mask_of. frames_step frames_getitem_mask_xyz.
  frames_step frames_ne_mask_of. frames_step frames_getitem_mask.
  frames_step frames_ne_mask_of. frames_step frames_getitem_mask.
  frames_step frames_ne_mask_of. frames_step frames_getitem_mask.
  eapply frames_bind; [apply frames_quantize_st; assumption|].
  cbv beta; intros [[inds fl] invs] _.
  frames_step frames_getitem_index. frames_step frames_getitem_index.
  frames_step frames_getitem_index. apply frames_ret. exact I.
Qed.

(** C9: after a call, whether it returned or raised, the objects behind
    [input_point_cloud] and [input_labels] hold what they held before it,
    and so does every object that existed before the call; the helper may
    write to the three fresh arrays it is given. *)
Theorem inputs_not_modified c l vs ign h outcome h' :
  is_Some (h !! c) -> is_Some (h !! l) ->
  process_point_cloud_st quantize_st c l vs ign h = (outcome, h') ->
  h' !! c = h !! c /\ h' !! l = h !! l /\
  forall r, r < length h -> h' !! r = h !! r.
Proof.
  intros Hc Hl Hrun.
  destruct (frames_process_point_cloud_st (length h) c l vs ign h
              (Nat.le_refl _)) as [[_ Hsame] _].
  rewrite Hrun in Hsame. simpl in Hsame.
  apply lookup_lt_is_Some_1 in Hc. apply lookup_lt_is_Some_1 in Hl. auto.
Qed.

End StoreFrame.

Lemma frames_sparse_quantize_st n a b c :
  frames n (sparse_quantize_st a b c) (fun _ => True).
Proof.
  unfold sparse_quantize_st.
  frames_step frames_load. frames_step frames_lift.
  frames_step frames_load. frames_step frames_lift.
  frames_step frames_load. frames_step frames_lift.
  eapply frames_bind; [apply frames_lift|].
  cbv beta; intros [[inds fl] invs] _.
  frames_step frames_alloc. frames_step frames_alloc.
  frames_step frames_alloc. apply frames_ret. exact I.
Qed.

(** The modelled helper writes to no object that existed before it ran. *)
Lemma sparse_quantize_st_frame : writes_only_arguments sparse_quantize_st.
Proof.
  intros a b c h r Hr _ _ _.
  destruct (frames_sparse_quantize_st (length h) a b c h (Nat.le_refl _))
    as [[_ Hsame] _].
  apply Hsame, Hr.
Qed.

Lemma inputs_not_modified_witness :
  exists outcome h',
    process_point_cloud_st sparse_quantize_st 0 1 default_voxel_size
      default_ignore_label sample_heap = (outcome, h') /\
    h' !! 0 = Some (Float4 sample_cloud) /\
    h' !! 1 = Some (Ints sample_labels).
Proof.
  destruct (process_point_cloud_st sparse_quantize_st 0 1 default_voxel_size
              default_ignore_label sample_heap) as [outcome h'] eqn:Erun.
  exists outcome, h'. split; [reflexivity|].
  destruct (inputs_not_modified sparse_quantize_st sparse_quantize_st_frame
              0 1 default_voxel_size default_ignore_label sample_heap
              outcome h') as (Hc & Hl & _).
  - simpl. eauto.
  - simpl. eauto.
  - exact Erun.
  - split; [exact Hc | exact Hl].
Defined.

(** ** The store model computes what the functional model computes *)

Lemma M_bind_run {A B} (m : M A) (f : A -> M B) h a h1 :
  m h = (Ok a, h1) -> (m ≫= f) h = f a h1.
Proof. intros E. unfold mbind, M_bind. rewrite E. reflexivity. Qed.

Lemma load_run r (h : heap) a : h !! r = Some a -> load r h = (Ok a, h).
Proof. intros E. unfold load. rewrite E. reflexivity. Qed.

Lemma lookup_fresh (h ext : heap) k :
  (h ++ ext) !! (length h + k) = ext !! k.
Proof. rewrite lookup_app_r by lia. f_equal. lia. Qed.

Lemma lookup_new (h ext : heap) k a :
  ext !! k = Some a -> (h ++ ext) !! (length h + k) = Some a.
Proof. intros E. rewrite lookup_fresh. exact E. Qed.

Lemma lookup_old (h ext : heap) r a :
  h !! r = Some a -> (h ++ ext) !! r = Some a.
Proof. apply lookup_app_l_Some. Qed.

(** Run the first step of a sequence, given its outcome. *)
Tactic Notation "run" uconstr(lem) :=
  match goal with
  | |- context [(?m ≫= ?f) ?h] => rewrite (M_bind_run m f h _ _ lem)
  end.

(** Run the first step of a sequence with a tactic that finds its
    outcome. *)
Tactic Notation "run_step" tactic3(t) :=
  match goal with
  | |- context [(?m ≫= ?f) ?h] =>
      let E := fresh "E" in
      eassert (E : m h = (Ok _, _)) by t;
      rewrite (M_bind_run m f h _ _ E); clear E
  end.

(** A pure step that returned, and an allocation, run by computation. *)
Ltac run_pure :=
  repeat match goal with
  | |- context [(lift (Ok ?a) ≫= ?f) ?h] =>
      change ((lift (Ok a) ≫= f) h) with (f a h); cbv beta
  | |- context [(alloc ?a ≫= ?f) ?h] =>
      change ((alloc a ≫= f) h) with (f (length h) (h ++ [a])); cbv beta
  end.

(** Bring the store to the form [h ++ ext] and the fresh references to the
    form [length h + k]. *)
Ltac heap_norm :=
  rewrite ?insert_app_r_alt by lia;
  rewrite ?Nat.sub_diag;
  rewrite <- ?app_assoc;
  rewrite ?length_app;
  rewrite <- ?Nat.add_assoc;
  cbn [length app list_insert insert Nat.add].

Lemma assign_column3_run c (h : heap) rows :
  h !! c = Some (Float4 rows) -> assign_column3 c c h = (Ok tt, h).
Proof.
  intros E. unfold assign_column3.
  run (load_run _ _ _ E). simpl as_float4. run_pure.
  run (load_run _ _ _ E). simpl as_float4. run_pure.
  rewrite set_column3_self. run_pure. unfold store. rewrite E.
  rewrite list_insert_id by exact E. reflexivity.
Qed.

Lemma round_divide_run a vs (h : heap) rows :
  h !! a = Some (Float4 rows) ->
  round_divide a vs h
  = (Ok (length h), h ++ [Voxels (round_div vs <$> rows)]).
Proof.
  intros E. unfold round_divide. run (load_run _ _ _ E).
  simpl as_float4. run_pure. reflexivity.
Qed.

Lemma isub_min0_run a (h : heap) rows m :
  h !! a = Some (Voxels rows) -> min0 rows = Ok m ->
  isub_min0 a h = (Ok tt, <[a:=Voxels ((fun v => vsub v m) <$> rows)]> h).
Proof.
  intros E Hm. unfold isub_min0. run (load_run _ _ _ E).
  simpl as_voxels. run_pure. rewrite Hm. run_pure.
  unfold store. rewrite E. reflexivity.
Qed.

Lemma ne_mask_of_run l ign (h : heap) labels :
  h !! l = Some (Ints labels) ->
  ne_mask_of l ign h = (Ok (ne_mask labels ign), h).
Proof.
  intros E. unfold ne_mask_of. run (load_run _ _ _ E).
  simpl as_ints. run_pure. reflexivity.
Qed.

Lemma getitem_mask_run a mask (h : heap) arr sel :
  h !! a = Some arr -> nd_mask_index arr mask = Ok sel ->
  getitem_mask a mask h = (Ok (length h), h ++ [sel]).
Proof.
  intros E Hsel. unfold getitem_mask. run (load_run _ _ _ E).
  rewrite Hsel. run_pure. reflexivity.
Qed.

Lemma getitem_mask_xyz_run a mask (h : heap) rows sel :
  h !! a = Some (Float4 rows) ->
  mask_index (xyz_of <$> rows) mask = Ok sel ->
  getitem_mask_xyz a mask h = (Ok (length h), h ++ [Float3 sel]).
Proof.
  intros E Hsel. unfold getitem_mask_xyz. run (load_run _ _ _ E).
  simpl as_float4. run_pure. rewrite Hsel. run_pure. reflexivity.
Qed.

Lemma getitem_index_run a i (h : heap) arr idx sel :
  h !! a = Some arr -> h !! i = Some (Indices idx) ->
  nd_gather arr idx = Ok sel ->
  getitem_index a i h = (Ok (length h), h ++ [sel]).
Proof.
  intros Ea Ei Hsel. unfold getitem_index.
  run (load_run _ _ _ Ea). run (load_run _ _ _ Ei).
  simpl as_indices. run_pure. rewrite Hsel. run_pure. reflexivity.
Qed.

Lemma sparse_quantize_st_run a b c (h : heap) coords feats labels
    inds fl invs :
  h !! a = Some (Voxels coords) -> h !! b = Some (Float4 feats) ->
  h !! c = Some (Ints labels) ->
  sparse_quantize coords feats labels = Ok (inds, fl, invs) ->
  sparse_quantize_st a b c h
  = (Ok (length h, length h + 1, length h + 2),
     h ++ [Indices inds; Ints fl; Indices invs]).
Proof.
  intros Ea Eb Ec Hq. unfold sparse_quantize_st.
  run (load_run _ _ _ Ea). simpl as_voxels. run_pure.
  run (load_run _ _ _ Eb). simpl as_float4. run_pure.
  run (load_run _ _ _ Ec). simpl as_ints. run_pure.
  rewrite Hq. run_pure. cbv beta iota. run_pure.
  unfold mret, M_ret. rewrite !length_app. simpl length.
  rewrite <- !app_assoc, <- !Nat.add_assoc. reflexivity.
Qed.

(** Whenever [process_point_cloud] returns a feed_dict on the contents of
    two arrays, the run on the store returns references to the arrays of
    that feed_dict. *)
Lemma process_point_cloud_st_refines cloud labels vs ign fd (h : heap) c l :
  h !! c = Some (Float4 cloud) -> h !! l = Some (Ints labels) ->
  process_point_cloud cloud labels vs ign = Ok fd ->
  exists d h',
    process_point_cloud_st sparse_quantize_st c l vs ign h = (Ok d, h') /\
    deref_feed_dict h' d = Some fd.
Proof.
  intros Hc Hl Hpure.
  apply process_point_cloud_with_Ok in Hpure
    as (m & inds & fl & invs & pcv & feat & labs & Hlen & Hm & Hq & Hpc
        & Hfeat & Hlabs & ->).
  assert (Hmask : forall A (xs : list A), length xs = length cloud ->
            mask_index xs (ne_mask labels ign)
            = Ok (select (ne_mask labels ign) xs)).
  { intros A xs E. apply (ne_mask_index xs cloud labels ign Hlen E). }
  assert (Hmask_l : mask_index labels (ne_mask labels ign)
                    = Ok (select (ne_mask labels ign) labels)).
  { apply mask_index_same_length. unfold ne_mask.
    rewrite length_fmap. reflexivity. }
  set (mask := ne_mask labels ign) in *.
  set (shifted := (fun v => vsub v m) <$> (round_div vs <$> cloud)) in *.
  assert (Hsel_x : mask_index (xyz_of <$> cloud) mask
                   = Ok (select mask (xyz_of <$> cloud)))
    by (apply Hmask; apply length_fmap).
  assert (Hsel_v : nd_mask_index (Voxels shifted) mask
                   = Ok (Voxels (select mask shifted)))
    by (simpl; rewrite Hmask;
        [reflexivity | unfold shifted; rewrite !length_fmap; reflexivity]).
  assert (Hsel_f : nd_mask_index (Float4 cloud) mask
                   = Ok (Float4 (select mask cloud)))
    by (simpl; rewrite Hmask; reflexivity).
  assert (Hsel_l : nd_mask_index (Ints labels) mask
                   = Ok (Ints (select mask labels)))
    by (simpl; rewrite Hmask_l; reflexivity).
  assert (Hg_v : nd_gather (Voxels (select mask shifted)) inds
                 = Ok (Voxels pcv)) by (simpl; rewrite Hpc; reflexivity).
  assert (Hg_f : nd_gather (Float4 (select mask cloud)) inds
                 = Ok (Float4 feat)) by (simpl; rewrite Hfeat; reflexivity).
  assert (Hg_l : nd_gather (Ints (select mask labels)) inds
                 = Ok (Ints labs)) by (simpl; rewrite Hlabs; reflexivity).
  unfold process_point_cloud_st.
  run (assign_column3_run c h cloud Hc).
  run (round_divide_run c vs h cloud Hc).
  run (isub_min0_run (length h) _ _ m
         (list_lookup_middle h [] _ _ eq_refl) Hm).
  heap_norm. fold shifted.
  run (ne_mask_of_run l ign _ labels (lookup_old _ _ _ _ Hl)). fold mask.
  run (getitem_mask_xyz_run c mask _ cloud _ (lookup_old _ _ _ _ Hc) Hsel_x).
  heap_norm.
  run (ne_mask_of_run l ign _ labels (lookup_old _ _ _ _ Hl)). fold mask.
  run (getitem_mask_run (length h) mask _ _ _
         (list_lookup_middle h _ _ _ eq_refl) Hsel_v).
  heap_norm.
  run (ne_mask_of_run l ign _ labels (lookup_old _ _ _ _ Hl)). fold mask.
  run (getitem_mask_run c mask _ _ _ (lookup_old _ _ _ _ Hc) Hsel_f).
  heap_norm.
  run (ne_mask_of_run l ign _ labels (lookup_old _ _ _ _ Hl)). fold mask.
  run (getitem_mask_run l mask _ _ _ (lookup_old _ _ _ _ Hl) Hsel_l).
  heap_norm.
  run_step (eapply sparse_quantize_st_run;
              [apply lookup_new; reflexivity .. | exact Hq]).
  cbv beta iota. heap_norm.
  run_step (eapply getitem_index_run;
              [apply lookup_new; reflexivity .. | exact Hg_v]).
  heap_norm.
  run_step (eapply getitem_index_run;
              [apply lookup_new; reflexivity .. | exact Hg_f]).
  heap_norm.
  run_step (eapply getitem_index_run;
              [apply lookup_new; reflexivity .. | exact Hg_l]).
  heap_norm.
  do 2 eexists. split; [reflexivity|].
  unfold deref_feed_dict, read_as. cbn [F_ref C_ref pc_ref lidar_ref
    targets_ref targets_mapped_ref inverse_map_ref].
  rewrite !lookup_fresh. reflexivity.
Qed.

(** * Further properties of the notebook's code *)

(** ** What process_point_cloud keeps, and when it raises *)

Lemma select_ne_mask_zip {A} (xs : list A) labels ign :
  length labels <= length xs ->
  select (ne_mask labels ign) xs
  = fst <$> filter (fun pl => pl.2 <> ign) (zip xs labels).
Proof.
  unfold ne_mask. revert xs.
  induction labels as [|l labels IH]; intros [|x xs]; simpl;
    try lia; auto.
  intros E. apply le_S_n in E. rewrite filter_cons. simpl.
  destruct (Z.eqb_spec l ign) as [->|Hne]; simpl.
  - rewrite decide_False by auto. apply IH, E.
  - rewrite decide_True by auto. simpl. f_equal. apply IH, E.
Qed.

Lemma select_ne_mask_filter labels ign :
  select (ne_mask labels ign) labels = filter (fun l => l <> ign) labels.
Proof.
  unfold ne_mask. induction labels as [|l labels IH]; simpl; [reflexivity|].
  rewrite filter_cons.
  destruct (Z.eqb_spec l ign) as [->|Hne]; simpl.
  - rewrite decide_False by auto. exact IH.
  - rewrite decide_True by auto. f_equal. exact IH.
Qed.

Lemma mask_index_mismatch {A} (xs : list A) mask :
  mask <> [] -> length mask <> length xs ->
  mask_index xs mask = Raise IndexError.
Proof.
  intros Hm Hne. unfold mask_index.
  destruct (Nat.eqb_spec (length mask) (length xs)); [congruence|].
  destruct mask; [congruence | reflexivity].
Qed.

Section KeptRows.

Variable quantize : quantizer.

(** The 'pc' and 'targets_mapped' fields are the input rows and labels
    with the ignored ones removed, in input order, whatever the helper
    does; with one label per point and none ignored they are the inputs
    themselves, and with a label array of length zero they are empty. *)
Theorem kept_rows_in_input_order cloud labels vs ign fd :
  process_point_cloud_with quantize cloud labels vs ign = Ok fd ->
  F (targets_mapped fd) = filter (fun l => l <> ign) labels /\
  F (pc fd)
    = (fun pl => xyz_of pl.1)
        <$> filter (fun pl => pl.2 <> ign) (zip cloud labels) /\
  length (F (pc fd)) = count_kept labels ign /\
  (length labels = length cloud -> Forall (fun l => l <> ign) labels ->
   F (pc fd) = xyz_of <$> cloud /\ F (targets_mapped fd) = labels) /\
  (labels = [] -> F (pc fd) = [] /\ F (targets_mapped fd) = []).
Proof.
  intros H. apply process_point_cloud_with_Ok in H
    as (m & inds & fl & invs & pcv & feat & labs & Hlen & _ & _ & _ & _
        & _ & ->).
  apply labels_shape_le in Hlen.
  simpl. repeat split.
  - apply select_ne_mask_filter.
  - rewrite select_fmap, (select_ne_mask_zip cloud labels ign Hlen).
    rewrite <- list_fmap_compose. reflexivity.
  - apply select_ne_mask_length. rewrite length_fmap. exact Hlen.
  - apply select_all_true; [|apply ne_mask_none_ignored; assumption].
    unfold ne_mask. rewrite !length_fmap. assumption.
  - apply select_all_true; [|apply ne_mask_none_ignored; assumption].
    unfold ne_mask. rewrite length_fmap. reflexivity.
  - subst labels. reflexivity.
  - subst labels. reflexivity.
Qed.

(** A label array that is not empty and whose length is not the number
    of points makes the first mask indexing raise IndexError, before the
    helper is called. *)
Theorem label_count_mismatch_raises cloud labels vs ign :
  cloud <> [] -> labels <> [] -> length labels <> length cloud ->
  process_point_cloud_with quantize cloud labels vs ign = Raise IndexError.
Proof.
  intros Hne Hl Hlen. unfold process_point_cloud_with.
  destruct (min0_nonempty (round_div vs <$> cloud)) as [m ->].
  { destruct cloud; [congruence | discriminate]. }
  cbn [mbind res_bind].
  rewrite (mask_index_mismatch (xyz_of <$> cloud)); [reflexivity| |].
  - destruct labels; [congruence | discriminate].
  - unfold ne_mask. rewrite !length_fmap. exact Hlen.
Qed.


End KeptRows.

Lemma kept_rows_in_input_order_witness :
  [0; 3; 0; 3]%Z = filter (fun l => l <> default_ignore_label) sample_labels.
Proof.
  destruct (kept_rows_in_input_order sparse_quantize sample_cloud
              sample_labels default_voxel_size default_ignore_label
              sample_feed_dict) as (Hlabels & _).
  - vm_compute. reflexivity.
  - exact Hlabels.
Defined.

Lemma label_count_mismatch_raises_witness :
  process_point_cloud sample_cloud [0; 1]%Z default_voxel_size
    default_ignore_label = Raise IndexError.
Proof.
  apply label_count_mismatch_raises.
  - discriminate.
  - discriminate.
  - simpl. lia.
Defined.

(** The labels returned by the helper are overwritten before they are
    read: two helpers that return the same representatives and the same
    inverse map give the same feed_dict, or the same exception. *)
Theorem helper_labels_unused q1 q2 cloud labels vs ign :
  same_indices q1 q2 ->
  process_point_cloud_with q1 cloud labels vs ign
  = process_point_cloud_with q2 cloud labels vs ign.
Proof.
  intros Hsame. unfold process_point_cloud_with.
  destruct (min0 (round_div vs <$> cloud)) as [m|e]; [|reflexivity].
  cbn [mbind res_bind].
  destruct (mask_index (xyz_of <$> cloud) (ne_mask labels ign))
    as [out_pc|e]; [|reflexivity].
  cbn [mbind res_bind].
  destruct (mask_index ((fun v => vsub v m) <$> (round_div vs <$> cloud))
              (ne_mask labels ign)) as [pc_|e]; [|reflexivity].
  cbn [mbind res_bind].
  destruct (mask_index cloud (ne_mask labels ign)) as [feat_|e];
    [|reflexivity].
  cbn [mbind res_bind].
  destruct (mask_index labels (ne_mask labels ign)) as [labels_|e];
    [|reflexivity].
  cbn [mbind res_bind]. specialize (Hsame pc_ feat_ labels_).
  destruct (q1 pc_ feat_ labels_) as [[[i1 l1] v1]|e1],
           (q2 pc_ feat_ labels_) as [[[i2 l2] v2]|e2];
    simpl in Hsame; try discriminate.
  - injection Hsame as -> ->. reflexivity.
  - injection Hsame as ->. reflexivity.
Qed.

Lemma helper_labels_unused_witness :
  process_point_cloud_with
    (fun c f l => (fun r => (r.1.1, [], r.2)) <$> sparse_quantize c f l)
    sample_cloud sample_labels default_voxel_size default_ignore_label
  = Ok sample_feed_dict.
Proof.
  rewrite (helper_labels_unused _ sparse_quantize).
  - vm_compute. reflexivity.
  - intros c f l. destruct (sparse_quantize c f l) as [[[i ll] v]|e];
      reflexivity.
Defined.

(** ** Where the origin shift puts the voxels *)

Lemma cmin_cases a b : cmin a b = a \/ cmin a b = b.
Proof.
  destruct a as [x| | |], b as [y| | |]; simpl; auto.
  destruct (Z.min_spec x y) as [[_ ->]|[_ ->]]; auto.
Qed.

Lemma fold_left_vmin_attained (f : voxel -> coord) rest v :
  (forall a b, f (vmin a b) = cmin (f a) (f b)) ->
  exists u, u ∈ v :: rest /\ f u = f (fold_left vmin rest v).
Proof.
  intros Hf. revert v. induction rest as [|w rest IH]; intros v; simpl.
  - exists v. split; [left | reflexivity].
  - destruct (IH (vmin v w)) as (u & Hu & Hfu).
    apply elem_of_cons in Hu as [->|Hu].
    + rewrite Hf in Hfu.
      destruct (cmin_cases (f v) (f w)) as [E|E]; rewrite E in Hfu.
      * exists v. split; [left | exact Hfu].
      * exists w. split; [right; left | exact Hfu].
    + exists u. split; [right; right; exact Hu | exact Hfu].
Qed.

Lemma min0_attained (f : voxel -> coord) a m :
  (forall u v, f (vmin u v) = cmin (f u) (f v)) ->
  min0 a = Ok m -> exists u, u ∈ a /\ f u = f m.
Proof.
  intros Hf. destruct a as [|v rest]; simpl; [discriminate|].
  intros [= <-]. apply fold_left_vmin_attained, Hf.
Qed.

(** With a voxel size other than zero, when the per-axis minimum over the
    kept points is the minimum over all points (as when no label is
    ignored), the voxels of 'lidar' reach coordinate 0 on every axis. *)
Theorem lidar_attains_origin cloud labels vs ign fd :
  Qeq_bool vs 0 = false ->
  process_point_cloud cloud labels vs ign = Ok fd ->
  min0 (round_div vs <$> select (ne_mask labels ign) cloud)
    = min0 (round_div vs <$> cloud) ->
  attains_origin (C (lidar fd)).
Proof.
  intros Hvs H Hmin.
  apply process_point_cloud_Ok in H as (m & _ & Hm & _ & _ & Hinv).
  assert (Hmfin : vfinite m).
  { eapply min0_finite; [|exact Hm]. apply Forall_fmap, Forall_forall.
    intros p _. apply round_div_finite, Hvs. }
  rewrite Hm in Hmin.
  assert (Hin : forall p, p ∈ select (ne_mask labels ign) cloud ->
                  vsub (round_div vs p) m ∈ C (lidar fd)).
  { intros p Hp. apply list_elem_of_lookup in Hp as [j Hj].
    destruct (Forall2_lookup_l _ _ _ _ _ Hinv Hj) as (r & _ & Hr).
    apply list_elem_of_lookup. eauto. }
  assert (Haxis : forall f : voxel -> coord,
            (forall u v, f (vmin u v) = cmin (f u) (f v)) ->
            exists p x y z, p ∈ select (ne_mask labels ign) cloud /\
                      round_div vs p = vox x y z /\
                      f (vox x y z) = f m).
  { intros f Hf. destruct (min0_attained f _ m Hf Hmin) as (u & Hu & Hfu).
    apply list_elem_of_fmap in Hu as (p & -> & Hp).
    destruct (round_div_finite vs p Hvs) as (x & y & z & E).
    rewrite E in Hfu. eauto 10. }
  destruct Hmfin as (mx & my & mz & ->). repeat split.
  - destruct (Haxis (fun v => v.1.1)) as (p & x & y & z & Hp & E & Hx).
    { intros [[? ?] ?] [[? ?] ?]. reflexivity. }
    specialize (Hin p Hp). rewrite E in Hin.
    simpl in Hx, Hin. injection Hx as ->. rewrite Z.sub_diag in Hin. eauto.
  - destruct (Haxis (fun v => v.1.2)) as (p & x & y & z & Hp & E & Hy).
    { intros [[? ?] ?] [[? ?] ?]. reflexivity. }
    specialize (Hin p Hp). rewrite E in Hin.
    simpl in Hy, Hin. injection Hy as ->. rewrite Z.sub_diag in Hin. eauto.
  - destruct (Haxis (fun v => v.2)) as (p & x & y & z & Hp & E & Hz).
    { intros [[? ?] ?] [[? ?] ?]. reflexivity. }
    specialize (Hin p Hp). rewrite E in Hin.
    simpl in Hz, Hin. injection Hz as ->. rewrite Z.sub_diag in Hin. eauto.
Qed.

Lemma lidar_attains_origin_witness :
  attains_origin [vox 1 2 2; vox 3 0 1; vox 2 3 0; vox 0 2 1].
Proof.
  apply (lidar_attains_origin offset_cloud [1; 2; 3; 4]%Z default_voxel_size
           default_ignore_label
           {| pc := {| F := xyz_of <$> offset_cloud;
                       C := xyz_of <$> offset_cloud |};
              lidar := {| F := offset_cloud;
                          C := [vox 1 2 2; vox 3 0 1; vox 2 3 0; vox 0 2 1] |};
              targets := {| F := [1; 2; 3; 4]%Z;
                            C := [vox 1 2 2; vox 3 0 1; vox 2 3 0;
                                  vox 0 2 1] |};
              targets_mapped := {| F := [1; 2; 3; 4]%Z;
                                   C := xyz_of <$> offset_cloud |};
              inverse_map := {| F := [0; 1; 2; 3];
                                C := xyz_of <$> offset_cloud |} |}).
  - reflexivity.
  - vm_compute. reflexivity.
  - vm_compute. reflexivity.
Defined.

(** ** When the call returns *)

Section Outcome.

Variable quantize : quantizer.
Hypothesis quantize_spec : quantizes quantize.


End Outcome.


(** ** A voxel size of zero *)

Lemma csub_nonfinite a m : cnonfinite a -> cnonfinite (csub a m).
Proof. destruct a, m; simpl; tauto. Qed.

Lemma round_div_zero p : vnonfinite (round_div 0 p).
Proof.
  unfold round_div, round_quotient. simpl.
  destruct (Qnum (px p)), (Qnum (py p)), (Qnum (pz p)); simpl; tauto.
Qed.

Section ZeroVoxelSize.

Variable quantize : quantizer.

(** No statement of [process_point_cloud] tests the voxel size, and NumPy
    divides by zero without an exception: with a voxel size of zero the
    call goes on to the helper, and no voxel coordinate of a feed_dict it
    returns is a number. *)
Theorem zero_voxel_size_not_finite cloud labels ign fd :
  process_point_cloud_with quantize cloud labels 0 ign = Ok fd ->
  Forall vnonfinite (C (lidar fd)) /\ Forall vnonfinite (C (targets fd)).
Proof.
  intros H. apply process_point_cloud_with_Ok in H
    as (m & inds & fl & invs & pcv & feat & labs & _ & _ & _ & Hpc & _
        & _ & ->).
  simpl. assert (Hall : Forall vnonfinite pcv); [|auto].
  eapply gather_Forall; [|exact Hpc].
  apply select_Forall. apply Forall_fmap, Forall_fmap, Forall_forall.
  intros p _. pose proof (round_div_zero p) as Hp. unfold compose.
  destruct (round_div 0 p) as [[x y] z], m as [[mx my] mz].
  destruct Hp as (Hx & Hy & Hz).
  repeat split; apply csub_nonfinite; assumption.
Qed.

End ZeroVoxelSize.

Lemma zero_voxel_size_not_finite_witness :
  Forall vnonfinite [(NaN, NaN, NaN)].
Proof.
  apply (zero_voxel_size_not_finite sparse_quantize offset_cloud offset_labels
           default_ignore_label
           {| pc := pc offset_feed_dict;
              lidar := {| F := [at_voxel 3 0 7]; C := [(NaN, NaN, NaN)] |};
              targets := {| F := [1%Z]; C := [(NaN, NaN, NaN)] |};
              targets_mapped := targets_mapped offset_feed_dict;
              inverse_map := {| F := [0; 0; 0];
                                C := xyz_of <$> take 3 offset_cloud |} |}).
  vm_compute. reflexivity.
Defined.

(** ** generate_random_batch on empty samples *)

(** With [pc_size = 0] and at least one sample the first call of
    [process_point_cloud] raises ValueError and no batch is built; more
    generally an empty sample anywhere in the batch makes the call
    raise. *)
Theorem generate_random_batch_empty_sample draws :
  Exists (fun d => d.1 = []) draws ->
  (exists e, generate_random_batch draws = Raise e) /\
  (forall d rest, draws = d :: rest -> d.1 = [] ->
     generate_random_batch draws = Raise ValueError).
Proof.
  intros Hex. split.
  - unfold generate_random_batch.
    assert (Hraise : exists e, process_samples draws = Raise e).
    { induction Hex as [[cloud labels] draws Hd|[cloud labels] draws _ IH];
        simpl in *.
      - subst cloud. eexists. reflexivity.
      - destruct IH as [e He].
        destruct (process_point_cloud cloud labels default_voxel_size
                    default_ignore_label); cbn [mbind res_bind];
          [rewrite He|]; eexists; reflexivity. }
    destruct Hraise as [e ->]. eexists. reflexivity.
  - intros [cloud labels] rest -> Hd. simpl in Hd. subst cloud. reflexivity.
Qed.

Lemma generate_random_batch_empty_sample_witness :
  generate_random_batch [([], []); ([], [])] = Raise ValueError.
Proof.
  apply (generate_random_batch_empty_sample [([], []); ([], [])])
    with (d := ([], [])) (rest := [([], [])]).
  - left. reflexivity.
  - reflexivity.
  - reflexivity.
Defined.

(** ** The data-loading cell *)

Lemma ravel_cons p rows :
  ravel (p :: rows) = px p :: py p :: pz p :: intensity p :: ravel rows.
Proof. reflexivity. Qed.

Lemma length_ravel rows : length (ravel rows) = 4 * length rows.
Proof.
  induction rows as [|p rows IH]; [reflexivity|].
  rewrite ravel_cons. simpl length. rewrite IH. lia.
Qed.

Lemma reshape4_ravel rows : reshape4 (ravel rows) = Ok rows.
Proof.
  induction rows as [|p rows IH]; [reflexivity|].
  rewrite ravel_cons. simpl. rewrite IH. destruct p. reflexivity.
Qed.

Lemma reshape4_Ok flat rows : reshape4 flat = Ok rows -> ravel rows = flat.
Proof.
  remember (length flat) as n eqn:Hn. revert flat rows Hn.
  induction n as [n IH] using lt_wf_ind. intros flat rows Hn.
  destruct flat as [|x [|y [|z [|i rest]]]]; simpl; try discriminate.
  - intros [= <-]. reflexivity.
  - destruct (reshape4 rest) as [rows'|e] eqn:Erest; [|discriminate].
    intros [= <-]. rewrite ravel_cons. simpl.
    rewrite (IH (length rest)) with (flat := rest) (rows := rows'); auto.
    subst n. simpl. lia.
Qed.

Lemma reshape4_ragged flat :
  length flat mod 4 <> 0 -> reshape4 flat = Raise ValueError.
Proof.
  remember (length flat) as n eqn:Hn. revert flat Hn.
  induction n as [n IH] using lt_wf_ind. intros flat Hn Hmod.
  destruct flat as [|x [|y [|z [|i rest]]]]; simpl; try reflexivity.
  - subst n. simpl in Hmod. congruence.
  - rewrite (IH (length rest)) with (flat := rest); auto.
    + subst n. simpl. lia.
    + subst n. simpl length in Hmod.
      replace (S (S (S (S (length rest))))) with (length rest + 1 * 4)
        in Hmod by lia.
      rewrite Nat.Div0.mod_add in Hmod. exact Hmod.
Qed.

Lemma ravel_of_multiple flat :
  length flat mod 4 = 0 -> exists rows, flat = ravel rows.
Proof.
  remember (length flat) as n eqn:Hn. revert flat Hn.
  induction n as [n IH] using lt_wf_ind. intros flat Hn Hmod.
  destruct flat as [|x [|y [|z [|i rest]]]];
    try (subst n; simpl in Hmod; discriminate).
  - exists []. reflexivity.
  - destruct (IH (length rest)) with (flat := rest) as [rows ->]; auto.
    + subst n. simpl. lia.
    + subst n. simpl length in Hmod.
      replace (S (S (S (S (length rest))))) with (length rest + 1 * 4)
        in Hmod by lia.
      rewrite Nat.Div0.mod_add in Hmod. exact Hmod.
    + exists ({| px := x; py := y; pz := z; intensity := i |} :: rows).
      reflexivity.
Qed.

(** [reshape(-1, 4)] and flattening are inverse to each other, and the
    reshape raises ValueError exactly on a flat array whose size is no
    multiple of four. *)
Theorem reshape4_round_trip flat :
  (forall rows, reshape4 (ravel rows) = Ok rows) /\
  (forall rows, reshape4 flat = Ok rows ->
     ravel rows = flat /\ length flat = 4 * length rows) /\
  (reshape4 flat = Raise ValueError <-> length flat mod 4 <> 0).
Proof.
  split; [apply reshape4_ravel|]. split.
  - intros rows H. apply reshape4_Ok in H. subst flat.
    split; [reflexivity | apply length_ravel].
  - split; [|apply reshape4_ragged].
    intros Hraise Hmod.
    destruct (ravel_of_multiple flat Hmod) as [rows ->].
    rewrite reshape4_ravel in Hraise. discriminate.
Qed.

Lemma load_labels_Ok label_map raw labels :
  load_labels label_map raw = Ok labels <->
  Forall2 (fun v l => label_map !! Z.to_nat (low16 v) = Some l) raw labels.
Proof.
  revert labels. induction raw as [|v raw IH]; intros labels; simpl.
  - split; [intros [= <-]; constructor | intros H; inversion H; reflexivity].
  - unfold load_label at 1.
    destruct (label_map !! Z.to_nat (low16 v)) as [l|] eqn:El;
      cbn [mbind res_bind].
    + destruct (load_labels label_map raw) as [ls|e] eqn:Els;
        cbn [mbind res_bind].
      * split.
        -- intros H. apply Ok_inj in H. subst labels.
           constructor; [exact El | apply IH; reflexivity].
        -- intros H. inversion H as [|? l' ? ls' Hl Hls]; subst.
           apply IH in Hls. apply Ok_inj in Hls. subst ls'.
           assert (l' = l) by congruence. subst l'. reflexivity.
      * split; [discriminate|].
        intros H. inversion H as [|? l' ? ls' Hl Hls]; subst.
        apply IH in Hls. discriminate.
    + split; [discriminate|].
      intros H. inversion H as [|? l' ? ls' Hl Hls]; subst. congruence.
Qed.

(** The loading cell returns a batch exactly when the point file holds a
    positive multiple of four floats, the label file holds one label per
    point or no label at all, and the low 16 bits of every raw label
    index the label map. *)
Theorem load_sample_returns label_map flat raw :
  (exists batch, load_sample label_map flat raw = Ok batch) <->
  length flat mod 4 = 0 /\ flat <> [] /\
  (length flat = 4 * length raw \/ raw = []) /\
  Forall (fun v => Z.to_nat (low16 v) < length label_map) raw.
Proof.
  unfold load_sample. split.
  - intros [batch H]. res_inv H.
    apply reshape4_Ok in Ha. subst flat.
    apply load_labels_Ok in Ha0.
    apply process_point_cloud_Ok in Ha1 as (m & Hlen & Hm & _).
    pose proof (Forall2_length _ _ _ Ha0) as Hraw.
    rewrite length_ravel. repeat split.
    + rewrite Nat.mul_comm. apply Nat.Div0.mod_mul.
    + destruct a; discriminate.
    + destruct Hlen as [Hlen| ->]; [left; lia | right].
      destruct raw; [reflexivity | discriminate].
    + clear -Ha0. induction Ha0 as [|v l raw ls Hl _ IH]; constructor; auto.
      eapply lookup_lt_Some. exact Hl.
  - intros (Hmod & Hne & Hlen & Hrange).
    destruct (ravel_of_multiple flat Hmod) as [rows ->].
    rewrite length_ravel in Hlen. rewrite reshape4_ravel.
    cbn [mbind res_bind].
    assert (Hlabels : exists labels,
              load_labels label_map raw = Ok labels /\
              length labels = length raw).
    { clear -Hrange. induction Hrange as [|v raw Hv _ (ls & Hls & Hll)].
      - exists []. split; reflexivity.
      - destruct (lookup_lt_is_Some_2 _ _ Hv) as [l Hl].
        exists (l :: ls). simpl. unfold load_label. rewrite Hl.
        cbn [mbind res_bind]. rewrite Hls. simpl. auto. }
    destruct Hlabels as (labels & -> & Hll). cbn [mbind res_bind].
    destruct (process_point_cloud_returns rows labels default_voxel_size
                default_ignore_label) as [fd ->].
    + destruct rows; [exfalso; apply Hne; reflexivity | discriminate].
    + destruct Hlen as [Hlen| ->]; [left; lia | right].
      destruct labels; [reflexivity | discriminate].
    + eexists. reflexivity.
Qed.

Lemma load_sample_returns_witness :
  exists batch,
    load_sample [10; 11; 12]%Z (ravel sample_cloud) [0; 1; 2; 0x10001; 2]%Z
    = Ok batch.
Proof.
  apply load_sample_returns. split; [reflexivity|]. split; [discriminate|].
  split; [left; reflexivity|]. repeat constructor.
Defined.

(** ** The colours of the plot *)

Lemma argmax_from_bound rest : forall i best score,
  best < i -> argmax_from i best score rest < i + length rest.
Proof.
  induction rest as [|x rest IH]; intros i best score Hb; simpl; [lia|].
  destruct (Qle_bool x score).
  - specialize (IH (S i) best score). lia.
  - specialize (IH (S i) i x). lia.
Qed.

Lemma argmax_lt row c : argmax row = Ok c -> c < length row.
Proof.
  destruct row as [|x rest]; simpl; [discriminate|].
  intros [= <-]. pose proof (argmax_from_bound rest 1 0 x). lia.
Qed.

Lemma argmax_rows_bound outputs n :
  Forall (fun row => 0 < length row <= n) outputs ->
  exists preds,
    argmax_rows outputs = Ok preds /\
    length preds = length outputs /\
    Forall (fun c => c < n) preds.
Proof.
  induction 1 as [|row outputs [Hpos Hle] _ (preds & Hp & Hlen & Hall)].
  - exists []. repeat split; constructor.
  - destruct (argmax row) as [c|e] eqn:Ec.
    + exists (c :: preds). simpl. rewrite Ec. cbn [mbind res_bind].
      rewrite Hp. simpl. repeat split; [congruence|].
      constructor; [|exact Hall]. apply argmax_lt in Ec. lia.
    + destruct row; [simpl in Hpos; lia | discriminate].
Qed.

(** With one non-empty row of at most twenty class scores per voxel
    representative, looking the predictions up through the inverse map
    and the colour table raises nothing and gives one colour of
    [color_map] per point of the 'pc' field, the array the plot draws. *)
Theorem point_colors_aligned cloud labels vs ign fd outputs :
  process_point_cloud cloud labels vs ign = Ok fd ->
  length outputs = length (F (lidar fd)) ->
  Forall (fun row => 0 < length row <= length color_map) outputs ->
  exists colors,
    point_colors outputs (sparse_collate_fn [fd]) = Ok colors /\
    length colors = length (F (pc (sparse_collate_fn [fd]))) /\
    Forall (fun c => c ∈ color_map) colors.
Proof.
  intros H Hout Hrows.
  destruct (inverse_map_shape _ _ _ _ _ H) as [Hcount Hrange].
  destruct (argmax_rows_bound outputs _ Hrows) as (preds & Hp & Hlen & Hall).
  apply process_point_cloud_with_Ok in H
    as (m & inds & fl & invs & pcv & feat & labs & Hlab & _ & _ & _ & _
        & _ & ->).
  simpl in Hcount, Hrange, Hout.
  unfold point_colors. simpl. rewrite !app_nil_r. rewrite Hp.
  cbn [mbind res_bind].
  destruct (gather_in_range preds invs) as [ps Hps].
  { rewrite Hlen, Hout. exact Hrange. }
  rewrite Hps. cbn [mbind res_bind].
  assert (Hps_all : Forall (fun c => c < length color_map) ps)
    by (eapply gather_Forall; eauto).
  destruct (gather_in_range color_map ps Hps_all) as [colors Hcolors].
  exists colors. split; [exact Hcolors|]. split.
  - rewrite (gather_length _ _ _ Hcolors), (gather_length _ _ _ Hps), Hcount.
    symmetry. apply select_ne_mask_length. rewrite length_fmap.
    apply labels_shape_le, Hlab.
  - apply gather_Forall2 in Hcolors. clear -Hcolors.
    induction Hcolors as [|i c ps colors Hc _ IH]; constructor; auto.
    apply list_elem_of_lookup. eauto.
Qed.

Lemma point_colors_aligned_witness :
  exists colors,
    point_colors [[1; 5; 2]; [0; 0; 3; 3]]%Q (sparse_collate_fn [sample_feed_dict])
    = Ok colors /\
    length colors = 4.
Proof.
  destruct (point_colors_aligned sample_cloud sample_labels default_voxel_size
              default_ignore_label sample_feed_dict
              [[1; 5; 2]; [0; 0; 3; 3]]%Q)
    as (colors & Hc & Hlen & _).
  - vm_compute. reflexivity.
  - reflexivity.
  - repeat constructor; simpl; lia.
  - exists colors. split; [exact Hc | exact Hlen].
Defined.

(** ** The store: what a call returns *)

Section StoreResults.

Variable quantize_st : quantizer_st.
Hypothesis quantize_frame : writes_only_arguments quantize_st.

Lemma frames_fresh_and_shared n c l vs ign :
  frames n (process_point_cloud_st quantize_st c l vs ign)
         (fresh_and_shared n).
Proof.
  unfold process_point_cloud_st.
  frames_step frames_assign_column3_self.
  frames_step frames_round_divide.
  eapply frames_bind; [apply frames_isub_min0; assumption|].
  cbv beta; intros _ _.
  frames_step frames_ne_mask_of. frames_step frames_getitem_mask_xyz.
  frames_step frames_ne_mask_of. frames_step frames_getitem_mask.
  frames_step frames_ne_mask_of. frames_step frames_getitem_mask.
  frames_step frames_ne_mask_of. frames_step frames_getitem_mask.
  eapply frames_bind;
    [apply (frames_quantize_st quantize_st quantize_frame); assumption|].
  cbv beta; intros [[inds fl] invs] _.
  frames_step frames_getitem_index. frames_step frames_getitem_index.
  frames_step frames_getitem_index. apply frames_ret.
  unfold fresh_and_shared. simpl. repeat split; assumption.
Qed.

(** The feed_dict of a call that returns holds arrays allocated by the
    call: none of the arrays that [process_point_cloud] builds is an
    object that existed before, so none is an input, even when no label
    is ignored; and the tensors share the arrays [out_pc] and [pc]. *)
Theorem outputs_are_fresh c l vs ign h d h' :
  is_Some (h !! c) -> is_Some (h !! l) ->
  process_point_cloud_st quantize_st c l vs ign h = (Ok d, h') ->
  fresh_and_shared (length h) d /\
  Forall (fun r => r <> c /\ r <> l)
         [F_ref (pc_ref d); C_ref (pc_ref d); F_ref (lidar_ref d);
          C_ref (lidar_ref d); F_ref (targets_ref d); C_ref (targets_ref d);
          F_ref (targets_mapped_ref d); C_ref (targets_mapped_ref d);
          C_ref (inverse_map_ref d)].
Proof.
  intros Hc Hl Hrun.
  destruct (frames_fresh_and_shared (length h) c l vs ign h (Nat.le_refl _))
    as [_ Hd].
  rewrite Hrun in Hd. simpl in Hd. split; [exact Hd|].
  apply lookup_lt_is_Some_1 in Hc. apply lookup_lt_is_Some_1 in Hl.
  destruct Hd as (H1 & H2 & H3 & H4 & H5 & E1 & E2 & E3 & E4).
  rewrite E1, E2, E3, E4. repeat constructor; lia.
Qed.

End StoreResults.

Lemma outputs_are_fresh_witness :
  exists d h',
    process_point_cloud_st sparse_quantize_st 0 1 default_voxel_size
      default_ignore_label sample_heap = (Ok d, h') /\
    fresh_and_shared 2 d.
Proof.
  destruct (process_point_cloud_st sparse_quantize_st 0 1 default_voxel_size
              default_ignore_label sample_heap) as [[d|e] h'] eqn:Erun.
  - exists d, h'. split; [reflexivity|].
    apply (outputs_are_fresh sparse_quantize_st sparse_quantize_st_frame
             0 1 default_voxel_size default_ignore_label sample_heap d h').
    + simpl. eauto.
    + simpl. eauto.
    + exact Erun.
  - vm_compute in Erun. discriminate.
Defined.

(** ** generate_random_batch on its own draws *)

(** With [pc_size > 0] and labels drawn below [num_classes <= 19] every
    call of the loop returns, the batch holds all [batch_size] samples,
    and the ignore filter drops nothing: each sample's 'pc' and
    'targets_mapped' are the drawn points and labels. *)
Theorem generate_random_batch_keeps_all num_classes draws :
  (num_classes <= default_ignore_label)%Z ->
  Forall (random_draw num_classes) draws ->
  exists lis,
    generate_random_batch draws = Ok (sparse_collate_fn lis) /\
    Forall2 (fun d fd => F (pc fd) = xyz_of <$> d.1 /\
                         F (targets_mapped fd) = d.2) draws lis.
Proof.
  intros Hnc Hdraws. unfold generate_random_batch.
  assert (Hlis : exists lis,
    process_samples draws = Ok lis /\
    Forall2 (fun d fd => F (pc fd) = xyz_of <$> d.1 /\
                         F (targets_mapped fd) = d.2) draws lis).
  { induction Hdraws as [|[cloud labels] draws (Hne & Hlen & Hlab) _ IH].
    - exists []. split; [reflexivity | constructor].
    - destruct IH as (lis & Hlis & Hall). simpl in Hne, Hlen, Hlab.
      destruct (process_point_cloud_returns cloud labels default_voxel_size
                  default_ignore_label Hne (or_introl Hlen)) as [fd Hfd].
      exists (fd :: lis). simpl. rewrite Hfd. cbn [mbind res_bind].
      rewrite Hlis. split; [reflexivity|]. constructor; [|exact Hall].
      assert (Hmask : Forall (fun b => b = true)
                        (ne_mask labels default_ignore_label)).
      { apply ne_mask_none_ignored. eapply Forall_impl; [exact Hlab|].
        simpl. intros. lia. }
      apply process_point_cloud_with_Ok in Hfd
        as (m & inds & fl & invs & pcv & feat & labs & _ & _ & _ & _ & _
            & _ & ->).
      simpl. split; apply select_all_true; auto;
        unfold ne_mask; rewrite ?length_fmap; auto. }
  destruct Hlis as (lis & -> & Hall). exists lis. split; [reflexivity|].
  exact Hall.
Qed.

Lemma generate_random_batch_keeps_all_witness :
  exists lis,
    generate_random_batch
      [(aligned_cloud, aligned_labels); (tail sample_cloud, [0; 3; 0; 3]%Z)]
    = Ok (sparse_collate_fn lis) /\
    length lis = 2.
Proof.
  destruct (generate_random_batch_keeps_all 10
              [(aligned_cloud, aligned_labels);
               (tail sample_cloud, [0; 3; 0; 3]%Z)])
    as (lis & Hrun & Hall).
  - unfold default_ignore_label. lia.
  - repeat constructor; simpl; try discriminate; lia.
  - exists lis. split; [exact Hrun|].
    apply Forall2_length in Hall. simpl in Hall. lia.
Defined.
